(** * Killer Cubes (KillerCubes.cpp): the game logic, embedded and verified

    The program is a polling loop over three pieces of global state: the
    phase ([currentState]), a pool of three marbles and a 2 x 5 grid of
    blocks.  The embedding threads that state explicitly as a [World].

    Numbers.  The source computes positions in C++ [float].  Every position
    the game produces is a multiple of 1/2 of magnitude below 64 (marbles
    start at 0 and advance by 0.5 up to 30.5, blocks stand at
    [i * 2 - 5] and [row * 5 + 10]); on such values binary32 addition,
    subtraction, multiplication and comparison are exact, so positions are
    modelled as rationals [Q] with exact arithmetic.  [binary32_agrees]
    checks this against IEEE binary32 on every position of the game, and
    [CheckCollision32_raster] proves the collision test in binary32 equal
    to the exact one for all multiples of 1/2 between -32 and 32.  Off
    that raster binary32 rounds ([CheckCollision32_rounds]); what is
    proved of the collision test is proved on the raster.

    Engine.  TL-Engine is a third-party library.  Of it only the calls the
    game makes on a model are modelled, by what they do to the model:
    position, visibility and skin. *)

From Stdlib Require Import QArith Lqa.
From Stdlib Require Import Floats.SpecFloat.
From stdpp Require Import base list strings.

Local Open Scope Q_scope.

(** ** The engine's models *)

Record IModel := mkModel {
  posX : Q;
  posY : Q;
  posZ : Q;
  visible : bool;
  skin : option string   (* [None]: the skin that came with the mesh *)
}.

Definition CreateModel (x y z : Q) : IModel := mkModel x y z true None.
Definition GetX (m : IModel) : Q := posX m.
Definition GetZ (m : IModel) : Q := posZ m.
Definition SetPosition (x y z : Q) (m : IModel) : IModel :=
  mkModel x y z (visible m) (skin m).
Definition MoveZ (d : Q) (m : IModel) : IModel :=
  mkModel (posX m) (posY m) (posZ m + d) (visible m) (skin m).
Definition SetVisible (v : bool) (m : IModel) : IModel :=
  mkModel (posX m) (posY m) (posZ m) v (skin m).
Definition SetSkin (f : string) (m : IModel) : IModel :=
  mkModel (posX m) (posY m) (posZ m) (visible m) (Some f).

(** [a < b] on floats, as a boolean. *)
Definition Qlt_bool (a b : Q) : bool := negb (Qle_bool b a).

(** ** Constants and types of the game *)

Definition kNumBlocksPerRow : nat := 5.
Definition kMaxMarbles : nat := 3.
Definition kMarbleSpeed : Q := 1 # 2.
Definition kBlockWidth : Q := 2.
Definition kNumRows : nat := 2.   (* the literal 2 of [blocks[2][...]] *)

Inductive GameState := MENU | GAME | OVER.
Inductive BlockState := NORMAL | HIT_ONCE | DEAD.

Record Marble := mkMarble {
  model : IModel;
  active : bool
}.

Definition BlockState_eqb (a b : BlockState) : bool :=
  match a, b with
  | NORMAL, NORMAL | HIT_ONCE, HIT_ONCE | DEAD, DEAD => true
  | _, _ => false
  end.

Global Instance IModel_inhabited : Inhabited IModel := populate (CreateModel 0 0 0).
Global Instance Marble_inhabited : Inhabited Marble :=
  populate (mkMarble inhabitant false).
Global Instance BlockState_inhabited : Inhabited BlockState := populate NORMAL.

(** The globals the game logic reads or writes.  The camera, the meshes and
    the floor are written once by [SetupScene] and never read again. *)
Record World := mkWorld {
  marbles : list Marble;                 (* Marble marbles[kMaxMarbles] *)
  blocks : list (list IModel);           (* IModel* blocks[2][kNumBlocksPerRow] *)
  blockStates : list (list BlockState);  (* BlockState blockStates[2][kNumBlocksPerRow] *)
  gameOverText : bool;                   (* gameOverText's visibility *)
  currentState : GameState;
  engineRunning : bool                   (* engine->IsRunning() *)
}.

(** Array reads. *)
Definition marble (s : World) (i : nat) : Marble := marbles s !!! i.
Definition block (s : World) (row j : nat) : IModel := (blocks s !!! row) !!! j.
Definition blockState (s : World) (row j : nat) : BlockState :=
  (blockStates s !!! row) !!! j.

(** Array writes: [onMarble i f] runs [f] on [marbles[i]] in place, and so
    on.  The indices of the source are always in range; out of range the
    model leaves the array as it is. *)
Definition onMarble (i : nat) (f : Marble → Marble) (s : World) : World :=
  mkWorld (alter f i (marbles s)) (blocks s) (blockStates s)
          (gameOverText s) (currentState s) (engineRunning s).
Definition onBlock (row j : nat) (f : IModel → IModel) (s : World) : World :=
  mkWorld (marbles s) (alter (alter f j) row (blocks s)) (blockStates s)
          (gameOverText s) (currentState s) (engineRunning s).
Definition setBlockState (row j : nat) (v : BlockState) (s : World) : World :=
  mkWorld (marbles s) (blocks s) (alter (alter (λ _, v) j) row (blockStates s))
          (gameOverText s) (currentState s) (engineRunning s).
Definition setGameOverText (v : bool) (s : World) : World :=
  mkWorld (marbles s) (blocks s) (blockStates s) v (currentState s) (engineRunning s).
Definition setCurrentState (p : GameState) (s : World) : World :=
  mkWorld (marbles s) (blocks s) (blockStates s) (gameOverText s) p (engineRunning s).
Definition Stop (s : World) : World :=
  mkWorld (marbles s) (blocks s) (blockStates s) (gameOverText s) (currentState s) false.

Definition onModel (f : IModel → IModel) (m : Marble) : Marble :=
  mkMarble (f (model m)) (active m).
Definition setActive (b : bool) (m : Marble) : Marble := mkMarble (model m) b.

(** [for (int i = 0; i < n; i++) body(i);] for a body that never leaves
    the loop. *)
Definition for_each {S : Type} (n : nat) (body : nat → S → S) (s : S) : S :=
  foldl (λ acc i, body i acc) s (seq 0 n).

(** ** Input: what [engine->KeyHit] answers in one frame *)

Inductive EKeyCode := Key_Space | Key_0 | Key_Escape.

Record Keys := mkKeys { space : bool; zero : bool; escape : bool }.

Definition KeyHit (k : Keys) (c : EKeyCode) : bool :=
  match c with
  | Key_Space => space k
  | Key_0 => zero k
  | Key_Escape => escape k
  end.

(** ** The functions of the game *)

(** Where block [i] of row [row] stands. *)
Definition gridX (i : nat) : Q := inject_Z (Z.of_nat i) * kBlockWidth - 5.
Definition gridZ (row : nat) : Q := inject_Z (Z.of_nat row) * 5 + 10.

Definition SetupScene : World :=
  mkWorld
    (map (λ _, mkMarble (SetVisible false (CreateModel 0 0 0)) false) (seq 0 kMaxMarbles))
    (map (λ row, map (λ i, CreateModel (gridX i) 0 (gridZ row)) (seq 0 kNumBlocksPerRow))
         (seq 0 kNumRows))
    (map (λ _, map (λ _, NORMAL) (seq 0 kNumBlocksPerRow)) (seq 0 kNumRows))
    false MENU true.

Definition RestartGame (s : World) : World :=
  let s := for_each kMaxMarbles (λ i s,
             let s := onMarble i (setActive false) s in
             let s := onMarble i (onModel (SetVisible false)) s in
             onMarble i (onModel (SetPosition 0 0 0)) s) s in
  let s := for_each kNumRows (λ row, for_each kNumBlocksPerRow (λ i s,
             let s := onBlock row i (SetPosition (gridX i) 0 (gridZ row)) s in
             let s := onBlock row i (SetSkin "default.jpg") s in
             let s := onBlock row i (SetVisible true) s in
             setBlockState row i NORMAL s)) s in
  let s := setGameOverText false s in
  setCurrentState GAME s.

(** The loop of [ShootMarble] over the remaining indices [ixs]; the [break]
    is the branch that does not go on. *)
Fixpoint ShootMarble_from (ixs : list nat) (s : World) : World :=
  match ixs with
  | [] => s
  | i :: rest =>
      if negb (active (marble s i)) then
        let s := onMarble i (onModel (SetPosition 0 0 0)) s in
        let s := onMarble i (onModel (SetVisible true)) s in
        onMarble i (setActive true) s
      else ShootMarble_from rest s
  end.

Definition ShootMarble (s : World) : World :=
  ShootMarble_from (seq 0 kMaxMarbles) s.

Definition CheckCollision (m1 m2 : IModel) (radius : Q) : bool :=
  let dx := GetX m1 - GetX m2 in
  let dz := GetZ m1 - GetZ m2 in
  let distanceSq := dx * dx + dz * dz in
  let threshold := radius * 2 in
  Qlt_bool distanceSq (threshold * threshold).

(** Lines 140-153: marble [i] against block [(row, j)]. *)
Definition hitBlock (i row j : nat) (s : World) : World :=
  if negb (BlockState_eqb (blockState s row j) DEAD)
     && CheckCollision (model (marble s i)) (block s row j) 1
  then
    let s := onMarble i (setActive false) s in
    let s := onMarble i (onModel (SetVisible false)) s in
    match blockState s row j with
    | NORMAL =>
        let s := onBlock row j (SetSkin "red.jpg") s in
        setBlockState row j HIT_ONCE s
    | HIT_ONCE =>
        let s := setBlockState row j DEAD s in
        onBlock row j (SetVisible false) s
    | DEAD => s
    end
  else s.

(** Lines 138-155: marble [i] against the grid, row 0 before row 1, columns
    ascending.  Nothing leaves these loops early. *)
Definition checkBlocks (i : nat) (s : World) : World :=
  for_each kNumRows (λ row, for_each kNumBlocksPerRow (λ j, hitBlock i row j)) s.

(** Lines 131-135: the marble is taken out of play. *)
Definition removeMarble (i : nat) (s : World) : World :=
  let s := onMarble i (setActive false) s in
  onMarble i (onModel (SetVisible false)) s.

(** Lines 127-156: the body of the loop over the marbles. *)
Definition moveMarble (i : nat) (s : World) : World :=
  if active (marble s i) then
    let s := onMarble i (onModel (MoveZ kMarbleSpeed)) s in
    if Qlt_bool 30 (GetZ (model (marble s i))) then
      removeMarble i s                     (* continue *)
    else checkBlocks i s
  else s.

Definition moveMarbles (s : World) : World := for_each kMaxMarbles moveMarble s.

(** Lines 167-172: the inner loop of the win check; it leaves the row at
    the first block that is not DEAD. *)
Fixpoint scanRow (s : World) (row : nat) (js : list nat) (allDead : bool) : bool :=
  match js with
  | [] => allDead
  | j :: rest =>
      if negb (BlockState_eqb (blockState s row j) DEAD) then false
      else scanRow s row rest allDead
  end.

Definition allDead (s : World) : bool :=
  foldl (λ acc row, scanRow s row (seq 0 kNumBlocksPerRow) acc) true (seq 0 kNumRows).

(** Lines 164-179. *)
Definition checkWin (s : World) : World :=
  if allDead s then setGameOverText true (setCurrentState OVER s) else s.

Definition UpdateGame (k : Keys) (s : World) : World :=
  let s := if KeyHit k Key_Space then ShootMarble s else s in
  let s := moveMarbles s in
  let s := if KeyHit k Key_0 then RestartGame s else s in
  checkWin s.

Definition Update (k : Keys) (s : World) : World :=
  match currentState s with
  | MENU => if KeyHit k Key_Space then setCurrentState GAME s else s
  | GAME => UpdateGame k s
  | OVER =>
      let s := if KeyHit k Key_0 then RestartGame s else s in
      if KeyHit k Key_Escape then Stop s else s
  end.

(** [main]: one [Update] per frame while the engine runs. *)
Fixpoint mainLoop (ks : list Keys) (s : World) : World :=
  match ks with
  | [] => s
  | k :: rest => if engineRunning s then mainLoop rest (Update k s) else s
  end.

(** The states [main] can be in at the top of its loop. *)
Inductive reachable : World → Prop :=
  | reach_setup : reachable SetupScene
  | reach_frame k s :
      reachable s → engineRunning s = true → reachable (Update k s).

Definition noKey : Keys := mkKeys false false false.
Definition spaceKey : Keys := mkKeys true false false.
Definition zeroKey : Keys := mkKeys false true false.


(** ** Notions the properties are stated with *)

(** The arrays have the sizes the source declares. *)
Definition shaped (s : World) : Prop :=
  length (marbles s) = kMaxMarbles ∧
  length <$> blocks s = replicate kNumRows kNumBlocksPerRow ∧
  length <$> blockStates s = replicate kNumRows kNumBlocksPerRow.

(** The sizes of the three arrays. *)
Definition shape (s : World) : nat * list nat * list nat :=
  (length (marbles s), length <$> blocks s, length <$> blockStates s).

(** How many marbles of the pool are in flight. *)
Definition activeCount (s : World) : nat := length (List.filter active (marbles s)).

(** What [ShootMarble] does to the slot it picks. *)
Definition launch (m : Marble) : Marble :=
  setActive true (onModel (SetVisible true) (onModel (SetPosition 0 0 0) m)).

(** A marble is shown exactly while it is in flight. *)
Definition synced (m : Marble) : Prop := active m = visible (model m).
Definition Synced (s : World) : Prop := Forall synced (marbles s).

(** The test of [hitBlock], and what a hit does to the state and to the
    model of the block. *)
Definition collides (s : World) (i row j : nat) : bool :=
  negb (BlockState_eqb (blockState s row j) DEAD)
  && CheckCollision (model (marble s i)) (block s row j) 1.
Definition damaged (st : BlockState) : BlockState :=
  match st with NORMAL => HIT_ONCE | HIT_ONCE | DEAD => DEAD end.
Definition dent (st : BlockState) (b : IModel) : IModel :=
  match st with
  | NORMAL => SetSkin "red.jpg" b
  | HIT_ONCE => SetVisible false b
  | DEAD => b
  end.

(** The damage states in the order a block goes through them. *)
Definition rank (st : BlockState) : nat :=
  match st with NORMAL => 0 | HIT_ONCE => 1 | DEAD => 2 end.

(** One step of damage. *)
Inductive advances : BlockState → BlockState → Prop :=
  | adv_first : advances NORMAL HIT_ONCE
  | adv_second : advances HIT_ONCE DEAD.

(** No DEAD block is shown. *)
Definition DeadHidden (s : World) : Prop :=
  Forall2 (Forall2 (λ st b, st = DEAD → visible b = false)) (blockStates s) (blocks s).

(** The cells of the grid in the order [checkBlocks] visits them, and the
    visit of a list of cells by marble [i]. *)
Definition grid : list (nat * nat) :=
  row ← seq 0 kNumRows; (λ j, (row, j)) <$> seq 0 kNumBlocksPerRow.
Definition hitAll (i : nat) (cells : list (nat * nat)) (s : World) : World :=
  foldl (λ t cell, hitBlock i cell.1 cell.2 t) s cells.

(** Where a model is. *)
Definition place (m : IModel) : Q * Q * Q := (posX m, posY m, posZ m).

(** Marble [i] is in flight and its next step takes it, inside the lane,
    within collision range of where block [(row, j)] stands. *)
Definition reaches (s : World) (i row j : nat) : bool :=
  active (marble s i)
  && negb (Qlt_bool 30 (GetZ (MoveZ kMarbleSpeed (model (marble s i)))))
  && CheckCollision (MoveZ kMarbleSpeed (model (marble s i))) (block s row j) 1.

(** How many marbles of the pool reach block [(row, j)] with their next step. *)
Definition hitCount (s : World) (row j : nat) : nat :=
  length (List.filter (λ i, reaches s i row j) (seq 0 kMaxMarbles)).

(** Every block of the grid is DEAD. *)
Definition AllDead (s : World) : Prop :=
  ∀ row j, (row < kNumRows)%nat → (j < kNumBlocksPerRow)%nat →
           blockState s row j = DEAD.

(** ** States and inputs the examples run on *)

(** A GAME state in which all ten blocks are DEAD and hidden. *)
Definition allBlocksDead : World :=
  mkWorld
    (marbles SetupScene)
    ((λ row : list IModel, SetVisible false <$> row) <$> blocks SetupScene)
    (replicate kNumRows (replicate kNumBlocksPerRow DEAD))
    false GAME true.

(** The keys of a short game: start, fire once, then wait 16 frames. *)
Definition oneShot : list Keys := spaceKey :: spaceKey :: replicate 16 noKey.

(** Start, fire in two frames running, then wait 16 frames. *)
Definition twoShots : list Keys :=
  spaceKey :: spaceKey :: spaceKey :: replicate 16 noKey.

(** The game ten frames after the first shot: marble 0 flies at z = 5. *)
Definition midFlight : World :=
  mainLoop (spaceKey :: spaceKey :: replicate 9 noKey) SetupScene.

(** The game one frame before the first marble arrives: marble 0 flies at
    z = 8, the other two slots are free, every block is NORMAL. *)
Definition beforeImpact : World :=
  mainLoop (spaceKey :: spaceKey :: replicate 15 noKey) SetupScene.

(** ** What a player can observe *)

(** The game state of a marble and of a block: where it is, whether it is
    shown and, for a marble, whether it is in flight.  Skins, the
    game-over text and the engine's running flag are left out. *)
Definition marbleView (m : Marble) : Q * Q * Q * bool * bool :=
  (place (model m), visible (model m), active m).
Definition blockView (b : IModel) : Q * Q * Q * bool := (place b, visible b).

Definition view (s : World)
  : GameState * list (Q * Q * Q * bool * bool) * list (list BlockState)
    * list (list (Q * Q * Q * bool)) :=
  (currentState s, marbleView <$> marbles s, blockStates s,
   (λ row : list IModel, blockView <$> row) <$> blocks s).

(** Two states with the same view, cell by cell. *)
Definition alike (s t : World) : Prop :=
  currentState s = currentState t ∧
  Forall2 (λ m m', marbleView m = marbleView m') (marbles s) (marbles t) ∧
  blockStates s = blockStates t ∧
  Forall2 (Forall2 (λ b b', blockView b = blockView b')) (blocks s) (blocks t).

(** A write to a marble, or to a block, whose effect on the view depends
    on the view alone. *)
Definition onView (f : Marble → Marble) : Prop :=
  ∀ m m', marbleView m = marbleView m' → marbleView (f m) = marbleView (f m').
Definition onBlockView (f : IModel → IModel) : Prop :=
  ∀ b b', blockView b = blockView b' → blockView (f b) = blockView (f b').

(** The states after each of a run of frames. *)
Fixpoint frames (ks : list Keys) (s : World) : list World :=
  match ks with
  | [] => []
  | k :: rest => Update k s :: frames rest (Update k s)
  end.

(** ** The arithmetic of the game in binary32

    The same computations on IEEE binary32 numbers ([spec_float] with a
    24-bit mantissa), to check that on the positions of the game the
    rational model and the C++ [float] agree. *)

Definition prec32 : Z := 24.
Definition emax32 : Z := 128.

(** The float [n / 2]. *)
Definition halves32 (n : Z) : spec_float := binary_normalize prec32 emax32 n (-1) false.

(** The value of a finite float. *)
Definition Q_of_32 (x : spec_float) : option Q :=
  match x with
  | S754_zero _ => Some 0
  | S754_finite sign m e => Some ((if sign then -1 else 1) * inject_Z (Zpos m) * 2 ^ e)
  | S754_infinity _ | S754_nan => None
  end.

Definition exact32 (x : spec_float) (q : Q) : bool :=
  match Q_of_32 x with
  | Some v => Qeq_bool v q
  | None => false
  end.

(** [z + kMarbleSpeed], [z > 30], the grid positions and the collision
    test, as the source computes them. *)
Definition MoveZ32 (z : spec_float) : spec_float := SFadd prec32 emax32 z (halves32 1).
Definition outOfBounds32 (z : spec_float) : bool := SFltb (halves32 60) z.
Definition gridX32 (i : nat) : spec_float :=
  SFsub prec32 emax32 (SFmul prec32 emax32 (halves32 (2 * Z.of_nat i)) (halves32 4))
        (halves32 10).
Definition gridZ32 (row : nat) : spec_float :=
  SFadd prec32 emax32 (SFmul prec32 emax32 (halves32 (2 * Z.of_nat row)) (halves32 10))
        (halves32 20).
Definition CheckCollision32 (x1 z1 x2 z2 radius : spec_float) : bool :=
  let dx := SFsub prec32 emax32 x1 x2 in
  let dz := SFsub prec32 emax32 z1 z2 in
  let distanceSq := SFadd prec32 emax32 (SFmul prec32 emax32 dx dx)
                          (SFmul prec32 emax32 dz dz) in
  let threshold := SFmul prec32 emax32 radius (halves32 4) in
  SFltb distanceSq (SFmul prec32 emax32 threshold threshold).

(** The z-positions a marble can have: 0, 0.5, ..., 30.5, in half units. *)
Definition lane : list Z := Z.of_nat <$> seq 0 62.

(** The raster of the game: the coordinates that are multiples of 1/2
    between -32 and 32, in half units, and the differences of two of them.
    Every position of a marble or of a block lies on it. *)
Definition raster : list Z := seqZ (-64) 129.
Definition rasterDiff : list Z := seqZ (-128) 257.

(** The model [m] stands on the raster, at [(a / 2, b / 2)] on the ground
    plane. *)
Definition onRaster (m : IModel) (a b : Z) : Prop :=
  (-64 ≤ a ≤ 64)%Z ∧ (-64 ≤ b ≤ 64)%Z ∧
  posX m == inject_Z a / 2 ∧ posZ m == inject_Z b / 2.

(** Two floats off the raster: 2 - 2^-23, the float next below 2, and
    5 / 8192. *)
Definition nearTwo32 : spec_float := binary_normalize prec32 emax32 16777215 (-23) false.
Definition small32 : spec_float := binary_normalize prec32 emax32 5 (-13) false.

(** Two floats are the same float. *)
Definition sf_eqb (x y : spec_float) : bool :=
  match x, y with
  | S754_zero a, S754_zero b => Bool.eqb a b
  | S754_infinity a, S754_infinity b => Bool.eqb a b
  | S754_nan, S754_nan => true
  | S754_finite a m e, S754_finite b m' e' => Bool.eqb a b && Pos.eqb m m' && Z.eqb e e'
  | _, _ => false
  end.

(** ** Notions of the further properties *)

(** What a frame leaves of the state besides the marbles and the blocks. *)
Definition status (s : World) : bool * GameState * bool :=
  (gameOverText s, currentState s, engineRunning s).

(** The game-over text is shown exactly in the phase OVER. *)
Definition TextShown (s : World) : Prop :=
  gameOverText s = true ↔ currentState s = OVER.

(** A marble on the lane: at x = 0 and y = 0, at a z that is a multiple of
    1/2 between 0 and 30.5, and at most 30 while it is in flight. *)
Definition onLane (m : Marble) : Prop :=
  posX (model m) = 0 ∧ posY (model m) = 0 ∧
  ∃ k : Z, (0 ≤ k ≤ 61)%Z ∧ posZ (model m) == inject_Z k / 2 ∧
           (active m = true → (k ≤ 60)%Z).
Definition Lane (s : World) : Prop := Forall onLane (marbles s).

(** Every block stands where [SetupScene] put it. *)
Definition Grid (s : World) : Prop :=
  ∀ r c, (r < kNumRows)%nat → (c < kNumBlocksPerRow)%nat →
         place (block s r c) = (gridX c, 0, gridZ r).

(** The blocks of the columns 0, 1 and 4 are NORMAL. *)
Definition Untouched (s : World) : Prop :=
  ∀ r c, (r < kNumRows)%nat → (c < kNumBlocksPerRow)%nat → c ≠ 2%nat → c ≠ 3%nat →
         blockState s r c = NORMAL.

(** What holds of the scene in every state [main] can reach. *)
Definition Scene (s : World) : Prop := shaped s ∧ Lane s ∧ Grid s ∧ Untouched s.

(** The two middle blocks of each row share their damage state. *)
Definition Twin (s : World) : Prop :=
  ∀ r, (r < kNumRows)%nat → blockState s r 2 = blockState s r 3.

(** Marbles in flight are at different z, and a marble in flight that has
    come within 1.5 units of a row of blocks, or further, found the two
    middle blocks of that row DEAD. *)
Definition Apart (s : World) : Prop :=
  ∀ i j, (i < kMaxMarbles)%nat → (j < kMaxMarbles)%nat → i ≠ j →
         active (marble s i) = true → active (marble s j) = true →
         ¬ posZ (model (marble s i)) == posZ (model (marble s j)).
Definition Passed (s : World) : Prop :=
  ∀ i row c, (i < kMaxMarbles)%nat → (row < kNumRows)%nat → c = 2%nat ∨ c = 3%nat →
             active (marble s i) = true →
             gridZ row - (3 # 2) <= posZ (model (marble s i)) →
             blockState s row c = DEAD.

(** A marble in flight has left the origin. *)
Definition Launched (s : World) : Prop :=
  ∀ i, (i < kMaxMarbles)%nat → active (marble s i) = true →
       1 # 2 <= posZ (model (marble s i)).

(** What holds of the marbles in flight in every reachable state. *)
Definition Flight (s : World) : Prop := Launched s ∧ Apart s ∧ Passed s.

(** A state of the game in play: the arrays have their sizes, the marbles
    are on the lane, the blocks stand on the grid, and the marbles in
    flight are as the frames leave them.  It says nothing of the states of
    the blocks beyond what [Passed] says. *)
Definition Arena (s : World) : Prop := shaped s ∧ Lane s ∧ Grid s.



(** The game after two shots fired in two frames running: both in flight. *)
Definition twoInFlight : World :=
  mainLoop (spaceKey :: spaceKey :: spaceKey :: []) SetupScene.

(** The game after three shots fired in three frames running, one frame
    after the second has hit: the third marble is in the zone of row 0. *)
Definition thirdShotPassing : World :=
  mainLoop (spaceKey :: spaceKey :: spaceKey :: spaceKey :: replicate 16 noKey) SetupScene.

(** What a block shows matches its state: it is visible unless DEAD, and
    it wears the red skin unless NORMAL. *)
Definition looks (st : BlockState) (b : IModel) : Prop :=
  visible b = negb (BlockState_eqb st DEAD) ∧
  (skin b = Some "red.jpg"%string ↔ st ≠ NORMAL).
Definition Looks (s : World) : Prop :=
  Forall2 (Forall2 looks) (blockStates s) (blocks s).

(** * Properties *)

(** ** Comparisons and loops *)

Lemma Qlt_bool_iff (a b : Q) : Qlt_bool a b = true ↔ a < b.
Proof.
  unfold Qlt_bool. rewrite negb_true_iff, <- not_true_iff_false, Qle_bool_iff.
  split; [apply Qnot_le_lt | apply Qlt_not_le].
Qed.

Lemma Qlt_bool_false_iff (a b : Q) : Qlt_bool a b = false ↔ b <= a.
Proof.
  unfold Qlt_bool. rewrite negb_false_iff. apply Qle_bool_iff.
Qed.

Lemma BlockState_eqb_eq (a b : BlockState) : BlockState_eqb a b = true ↔ a = b.
Proof. destruct a, b; simpl; split; congruence. Qed.

Lemma for_each_S {S : Type} (n : nat) (body : nat → S → S) (s : S) :
  for_each (Datatypes.S n) body s = body n (for_each n body s).
Proof.
  unfold for_each. rewrite seq_S, foldl_app. reflexivity.
Qed.

Lemma for_each_0 {S : Type} (body : nat → S → S) (s : S) : for_each 0 body s = s.
Proof. reflexivity. Qed.

(** A property kept by every round of a loop holds after the loop. *)
Lemma for_each_inv {S : Type} (P : S → Prop) (n : nat) (body : nat → S → S) (s : S) :
  P s → (∀ i t, (i < n)%nat → P t → P (body i t)) → P (for_each n body s).
Proof.
  intros Hs. induction n as [|n IH]; intros Hb; [exact Hs|].
  rewrite for_each_S. apply Hb; [lia|]. apply IH. intros i t Hi. apply Hb. lia.
Qed.

(** Two runs of a loop stay related when every round keeps them related. *)
Lemma for_each_rel {S : Type} (R : S → S → Prop) (n : nat) (body : nat → S → S) (s t : S) :
  R s t → (∀ i a b, (i < n)%nat → R a b → R (body i a) (body i b)) →
  R (for_each n body s) (for_each n body t).
Proof.
  intros Hs. induction n as [|n IH]; intros Hb; [exact Hs|].
  rewrite !for_each_S. apply Hb; [lia|]. apply IH. intros i a b Hi. apply Hb. lia.
Qed.

(** ** The collision test *)


Lemma Qlt_bool_compat a b a' b' : a == a' → b == b' → Qlt_bool a b = Qlt_bool a' b'.
Proof.
  intros Ha Hb. unfold Qlt_bool. f_equal.
  destruct (Qle_bool b a) eqn:H1, (Qle_bool b' a') eqn:H2; try reflexivity.
  - apply Qle_bool_iff in H1. rewrite Ha, Hb in H1. apply Qle_bool_iff in H1. congruence.
  - apply Qle_bool_iff in H2. rewrite <- Ha, <- Hb in H2. apply Qle_bool_iff in H2. congruence.
Qed.

(** On the raster the test is a comparison of integers: in half units, the
    squared distance against 16. *)
Lemma CheckCollision_raster (m1 m2 : IModel) (a b c d : Z) :
  onRaster m1 a b → onRaster m2 c d →
  CheckCollision m1 m2 1 = ((a - c) * (a - c) + (b - d) * (b - d) <? 16)%Z.
Proof.
  intros (_ & _ & Hx1 & Hz1) (_ & _ & Hx2 & Hz2).
  set (n := ((a - c) * (a - c) + (b - d) * (b - d))%Z).
  unfold CheckCollision, GetX, GetZ.
  rewrite (Qlt_bool_compat _ _ (inject_Z n * (1 # 4)) (inject_Z 16 * (1 # 4))).
  - destruct (Z.ltb_spec n 16) as [Hlt | Hge].
    + apply Qlt_bool_iff. rewrite Zlt_Qlt in Hlt. lra.
    + apply Qlt_bool_false_iff. rewrite Zle_Qle in Hge. lra.
  - rewrite Hx1, Hz1, Hx2, Hz2. unfold n.
    rewrite inject_Z_plus, !inject_Z_mult. unfold Z.sub.
    rewrite !inject_Z_plus, !inject_Z_opp. field.
  - reflexivity.
Qed.

Lemma sf_eqb_eq (x y : spec_float) : sf_eqb x y = true → x = y.
Proof.
  destruct x as [a | a | | a m e], y as [b | b | | b m' e']; simpl; try discriminate.
  - intros H. apply eqb_prop in H. congruence.
  - intros H. apply eqb_prop in H. congruence.
  - reflexivity.
  - rewrite !andb_true_iff. intros [[H1 H2] H3].
    apply eqb_prop in H1. apply Pos.eqb_eq in H2. apply Z.eqb_eq in H3. congruence.
Qed.

(** In binary32 the difference of two coordinates of the raster is the
    float of their difference: nothing is rounded. *)
Lemma raster_sub32 :
  forallb (λ a, forallb (λ b,
     sf_eqb (SFsub prec32 emax32 (halves32 a) (halves32 b)) (halves32 (a - b)))
     raster) raster = true.
Proof. vm_compute. reflexivity. Qed.

(** In binary32 the comparison of [dx * dx + dz * dz] with the squared
    threshold gives, for all differences of the raster, what the integers
    give. *)
Lemma raster_test32 :
  let thresholdSq := SFmul prec32 emax32 (SFmul prec32 emax32 (halves32 2) (halves32 4))
                                         (SFmul prec32 emax32 (halves32 2) (halves32 4)) in
  forallb (λ dx,
     let dxSq := SFmul prec32 emax32 (halves32 dx) (halves32 dx) in
     forallb (λ dz,
        Bool.eqb (SFltb (SFadd prec32 emax32 dxSq
                           (SFmul prec32 emax32 (halves32 dz) (halves32 dz)))
                        thresholdSq)
                 (dx * dx + dz * dz <? 16)%Z)
     rasterDiff) rasterDiff = true.
Proof. vm_compute. reflexivity. Qed.

Lemma halves32_sub (a b : Z) :
  (-64 ≤ a ≤ 64)%Z → (-64 ≤ b ≤ 64)%Z →
  SFsub prec32 emax32 (halves32 a) (halves32 b) = halves32 (a - b).
Proof.
  intros Ha Hb. apply sf_eqb_eq.
  pose proof raster_sub32 as H. rewrite forallb_forall in H.
  specialize (H a). rewrite forallb_forall in H. apply H.
  - apply list_elem_of_In, elem_of_seqZ. lia.
  - apply list_elem_of_In, elem_of_seqZ. lia.
Qed.

(** The test as the source computes it, in binary32, on the raster. *)
Lemma CheckCollision32_raster (a b c d : Z) :
  (-64 ≤ a ≤ 64)%Z → (-64 ≤ b ≤ 64)%Z → (-64 ≤ c ≤ 64)%Z → (-64 ≤ d ≤ 64)%Z →
  CheckCollision32 (halves32 a) (halves32 b) (halves32 c) (halves32 d) (halves32 2)
  = ((a - c) * (a - c) + (b - d) * (b - d) <? 16)%Z.
Proof.
  intros Ha Hb Hc Hd. unfold CheckCollision32.
  rewrite !halves32_sub by assumption.
  pose proof raster_test32 as H. cbv zeta in H. rewrite forallb_forall in H.
  specialize (H (a - c)%Z). rewrite forallb_forall in H.
  apply eqb_prop, H.
  - apply list_elem_of_In, elem_of_seqZ. lia.
  - apply list_elem_of_In, elem_of_seqZ. lia.
Qed.



(** Off the raster binary32 rounds.  The point (2 - 2^-23, 5 / 8192) is
    closer to the origin than 2, by less than binary32 resolves next to 4:
    the sum of the squares rounds to 4 and the source's test answers
    false.  The game never tests such positions. *)
Lemma CheckCollision32_rounds :
  exact32 nearTwo32 (16777215 # 8388608) = true ∧
  exact32 small32 (5 # 8192) = true ∧
  (0 - (16777215 # 8388608)) * (0 - (16777215 # 8388608))
  + (0 - (5 # 8192)) * (0 - (5 # 8192)) < (2 * 1) * (2 * 1) ∧
  CheckCollision32 (halves32 0) (halves32 0) nearTwo32 small32 (halves32 2) = false.
Proof. repeat split; vm_compute; reflexivity. Qed.

(** On every position of the game binary32 computes what the rational
    model computes: the step of a marble and the out-of-bounds test on the
    lane, the grid positions, and the collision test of a marble on the
    lane against every block of the grid. *)
Lemma binary32_agrees :
  forallb (λ k, exact32 (MoveZ32 (halves32 k)) (inject_Z k / 2 + kMarbleSpeed)
                && Bool.eqb (outOfBounds32 (halves32 k)) (Qlt_bool 30 (inject_Z k / 2)))
          lane = true ∧
  forallb (λ row, forallb (λ i,
             exact32 (gridX32 i) (gridX i) && exact32 (gridZ32 row) (gridZ row)
             && forallb (λ k,
                  Bool.eqb (CheckCollision32 (halves32 0) (halves32 k)
                                             (gridX32 i) (gridZ32 row) (halves32 2))
                           (CheckCollision (mkModel 0 0 (inject_Z k / 2) true None)
                                           (CreateModel (gridX i) 0 (gridZ row)) 1))
                  lane)
             (seq 0 kNumBlocksPerRow))
          (seq 0 kNumRows) = true.
Proof. split; vm_compute; reflexivity. Qed.

(** ** The phases that wait for a key *)

(** C9.  In MENU and in OVER a frame in which neither the restart key nor
    the quit key is hit leaves the marbles (position, active flag,
    visibility) and the blocks (state, visibility) as they are.  In MENU
    the frame changes nothing but the phase, which goes to GAME when the
    start key is hit, whatever the other keys are. *)
Theorem idle_phases_keep_the_scene (k : Keys) (s : World) :
  (currentState s = MENU ∨ currentState s = OVER →
   KeyHit k Key_0 = false → KeyHit k Key_Escape = false →
   marbles (Update k s) = marbles s ∧
   blocks (Update k s) = blocks s ∧
   blockStates (Update k s) = blockStates s) ∧
  (currentState s = OVER →
   KeyHit k Key_0 = false → KeyHit k Key_Escape = false → Update k s = s) ∧
  (currentState s = MENU →
   Update k s = if KeyHit k Key_Space then setCurrentState GAME s else s).
Proof.
  unfold Update. split; [|split].
  - intros [Hp | Hp] H0 Hesc; rewrite Hp.
    + destruct (KeyHit k Key_Space); repeat split; reflexivity.
    + rewrite H0, Hesc. repeat split; reflexivity.
  - intros Hp H0 Hesc. rewrite Hp, H0, Hesc. reflexivity.
  - intros Hp. rewrite Hp. reflexivity.
Qed.

Lemma idle_phases_keep_the_scene_witness :
  (marbles (Update spaceKey SetupScene) = marbles SetupScene ∧
   blocks (Update spaceKey SetupScene) = blocks SetupScene ∧
   blockStates (Update spaceKey SetupScene) = blockStates SetupScene) ∧
  Update spaceKey (setCurrentState OVER allBlocksDead) = setCurrentState OVER allBlocksDead ∧
  Update zeroKey SetupScene = SetupScene.
Proof.
  split; [|split].
  - apply (proj1 (idle_phases_keep_the_scene spaceKey SetupScene));
      [left; reflexivity | reflexivity | reflexivity].
  - apply (proj1 (proj2 (idle_phases_keep_the_scene spaceKey
                           (setCurrentState OVER allBlocksDead))));
      reflexivity.
  - apply (proj2 (proj2 (idle_phases_keep_the_scene zeroKey SetupScene))).
    reflexivity.
Defined.

(** ** Firing *)

Lemma marbles3 (s : World) :
  length (marbles s) = kMaxMarbles → ∃ m0 m1 m2, marbles s = [m0; m1; m2].
Proof.
  destruct (marbles s) as [|m0 [|m1 [|m2 [|m3 l]]]]; try discriminate.
  intros _. eauto.
Qed.

Lemma ShootMarble_length (s : World) :
  length (marbles (ShootMarble s)) = length (marbles s).
Proof.
  unfold ShootMarble. generalize (seq 0 kMaxMarbles). intros ixs.
  induction ixs as [|i ixs IH]; simpl; [reflexivity|].
  destruct (active (marble s i)); simpl; [exact IH|].
  rewrite !length_alter. reflexivity.
Qed.

Lemma ShootMarble_count (s : World) :
  length (marbles s) = kMaxMarbles →
  activeCount (ShootMarble s) = Nat.min (activeCount s + 1) kMaxMarbles.
Proof.
  destruct s as [ms bl bs t p r]. simpl.
  destruct ms as [|[? a0] [|[? a1] [|[? a2] [|m3 l]]]]; try discriminate.
  intros _. destruct a0, a1, a2; reflexivity.
Qed.

Lemma ShootMarble_iter_length (N : nat) (s : World) :
  length (marbles (Nat.iter N ShootMarble s)) = length (marbles s).
Proof.
  induction N as [|N IH]; simpl; [reflexivity|].
  rewrite ShootMarble_length. exact IH.
Qed.

(** C5.  [ShootMarble] takes the first inactive slot of the pool of three:
    that slot is put at the origin, made visible and activated, and nothing
    else changes.  Fired [N] times in a row with no frame in between, the
    pool goes from [c] active marbles to [min (c + N) 3], hence from none
    to [min N 3].  With no inactive slot the call leaves the whole state as
    it is. *)
Theorem ShootMarble_pool (s : World) :
  length (marbles s) = kMaxMarbles →
  (∀ i, (i < kMaxMarbles)%nat →
        (∀ j, (j < i)%nat → active (marble s j) = true) →
        active (marble s i) = false →
        ShootMarble s = onMarble i launch s ∧
        marble (ShootMarble s) i
          = mkMarble (mkModel 0 0 0 true (skin (model (marble s i)))) true) ∧
  (∀ N, activeCount (Nat.iter N ShootMarble s)
          = Nat.min (activeCount s + N) kMaxMarbles) ∧
  (∀ N, activeCount s = 0%nat →
        activeCount (Nat.iter N ShootMarble s) = Nat.min N kMaxMarbles) ∧
  ((∀ i, (i < kMaxMarbles)%nat → active (marble s i) = true) → ShootMarble s = s).
Proof.
  intros Hlen.
  assert (Hcount : ∀ N, activeCount (Nat.iter N ShootMarble s)
                        = Nat.min (activeCount s + N) kMaxMarbles).
  { assert (Hle : (activeCount s ≤ kMaxMarbles)%nat).
    { unfold activeCount. rewrite <- Hlen. apply List.filter_length_le. }
    induction N as [|N IH]; simpl.
    - lia.
    - rewrite ShootMarble_count by (rewrite ShootMarble_iter_length; exact Hlen).
      rewrite IH. unfold kMaxMarbles in *. lia. }
  split; [|split; [exact Hcount | split]].
  - intros i Hi Hbefore Hact.
    assert (H0 := Hbefore 0%nat). assert (H1 := Hbefore 1%nat).
    destruct s as [ms bl bs t p r]. simpl in Hlen.
    destruct ms as [|[? a0] [|[? a1] [|[? a2] [|m3 l]]]]; try discriminate.
    unfold ShootMarble, onMarble, marble in *. simpl in *.
    destruct i as [|[|[|i]]]; simpl in *; [| | |unfold kMaxMarbles in Hi; lia].
    + subst a0. split; reflexivity.
    + rewrite H0 by lia. subst a1. split; reflexivity.
    + rewrite H0, H1 by lia. subst a2. split; reflexivity.
  - intros N Hnone. rewrite Hcount, Hnone. reflexivity.
  - intros Hall.
    assert (H0 := Hall 0%nat). assert (H1 := Hall 1%nat). assert (H2 := Hall 2%nat).
    destruct s as [ms bl bs t p r]. simpl in Hlen.
    destruct ms as [|[? a0] [|[? a1] [|[? a2] [|m3 l]]]]; try discriminate.
    unfold ShootMarble, marble, kMaxMarbles in *. simpl in *.
    rewrite H0, H1, H2 by lia. reflexivity.
Qed.

Lemma ShootMarble_pool_witness :
  activeCount (Nat.iter 5 ShootMarble SetupScene) = 3%nat ∧
  ShootMarble (Nat.iter 3 ShootMarble SetupScene) = Nat.iter 3 ShootMarble SetupScene.
Proof.
  split.
  - apply (proj1 (proj2 (proj2 (ShootMarble_pool SetupScene eq_refl))) 5%nat).
    reflexivity.
  - apply (proj2 (proj2 (proj2
             (ShootMarble_pool (Nat.iter 3 ShootMarble SetupScene) eq_refl)))).
    intros [|[|[|i]]] Hi; [reflexivity | reflexivity | reflexivity |].
    unfold kMaxMarbles in Hi. lia.
Defined.

(** ** The arrays keep their sizes *)

Lemma fmap_length_alter {A : Type} (f : A → A) (row j : nat) (l : list (list A)) :
  length <$> alter (alter f j) row l = length <$> l.
Proof.
  rewrite (list_fmap_alter length (alter f j) id).
  - apply list_alter_id. reflexivity.
  - apply Forall_forall. intros x _. apply length_alter.
Qed.

Lemma shape_onMarble i f s : shape (onMarble i f s) = shape s.
Proof. unfold shape. simpl. rewrite length_alter. reflexivity. Qed.

Lemma shape_onBlock row j f s : shape (onBlock row j f s) = shape s.
Proof. unfold shape. simpl. rewrite fmap_length_alter. reflexivity. Qed.

Lemma shape_setBlockState row j v s : shape (setBlockState row j v s) = shape s.
Proof. unfold shape. simpl. rewrite fmap_length_alter. reflexivity. Qed.

Lemma shape_for_each (n : nat) (body : nat → World → World) (s : World) :
  (∀ i t, shape (body i t) = shape t) → shape (for_each n body s) = shape s.
Proof.
  intros Hb. apply (for_each_inv (λ t, shape t = shape s)); [reflexivity|].
  intros i t _ Ht. rewrite Hb. exact Ht.
Qed.

Lemma shape_RestartGame s : shape (RestartGame s) = shape s.
Proof.
  unfold RestartGame.
  assert (HS : ∀ t, shape (setCurrentState GAME (setGameOverText false t)) = shape t)
    by reflexivity.
  rewrite HS, shape_for_each.
  - apply shape_for_each. intros i t. rewrite !shape_onMarble. reflexivity.
  - intros row t. apply shape_for_each. intros i u.
    rewrite shape_setBlockState, !shape_onBlock. reflexivity.
Qed.

Lemma shape_ShootMarble s : shape (ShootMarble s) = shape s.
Proof.
  unfold ShootMarble. generalize (seq 0 kMaxMarbles). intros ixs.
  induction ixs as [|i ixs IH]; simpl; [reflexivity|].
  destruct (active (marble s i)); simpl; [exact IH|].
  rewrite !shape_onMarble. reflexivity.
Qed.

Lemma shape_removeMarble i s : shape (removeMarble i s) = shape s.
Proof. unfold removeMarble. rewrite !shape_onMarble. reflexivity. Qed.

Lemma shape_hitBlock i row j s : shape (hitBlock i row j s) = shape s.
Proof.
  unfold hitBlock.
  destruct (_ && _); [|reflexivity].
  destruct (blockState _ row j);
    rewrite ?shape_setBlockState, ?shape_onBlock, ?shape_setBlockState, ?shape_onMarble;
    reflexivity.
Qed.

Lemma shape_checkBlocks i s : shape (checkBlocks i s) = shape s.
Proof.
  unfold checkBlocks. apply shape_for_each. intros row t.
  apply shape_for_each. intros j u. apply shape_hitBlock.
Qed.

Lemma shape_moveMarble i s : shape (moveMarble i s) = shape s.
Proof.
  unfold moveMarble. destruct (active (marble s i)); [|reflexivity].
  destruct (Qlt_bool _ _).
  - rewrite shape_removeMarble, shape_onMarble. reflexivity.
  - rewrite shape_checkBlocks, shape_onMarble. reflexivity.
Qed.

Lemma shape_moveMarbles s : shape (moveMarbles s) = shape s.
Proof. apply shape_for_each. intros i t. apply shape_moveMarble. Qed.

Lemma shape_checkWin s : shape (checkWin s) = shape s.
Proof. unfold checkWin. destruct (allDead s); reflexivity. Qed.

Lemma shape_UpdateGame k s : shape (UpdateGame k s) = shape s.
Proof.
  unfold UpdateGame. rewrite shape_checkWin.
  destruct (KeyHit k Key_0); rewrite ?shape_RestartGame, shape_moveMarbles;
    destruct (KeyHit k Key_Space); rewrite ?shape_ShootMarble; reflexivity.
Qed.

Lemma shape_Update k s : shape (Update k s) = shape s.
Proof.
  unfold Update. destruct (currentState s).
  - destruct (KeyHit k Key_Space); reflexivity.
  - apply shape_UpdateGame.
  - assert (HS : ∀ t, shape (Stop t) = shape t) by reflexivity.
    destruct (KeyHit k Key_Escape), (KeyHit k Key_0);
      rewrite ?HS, ?shape_RestartGame; reflexivity.
Qed.

Lemma shaped_shape s :
  shaped s ↔ shape s = (kMaxMarbles, replicate kNumRows kNumBlocksPerRow,
                        replicate kNumRows kNumBlocksPerRow).
Proof.
  unfold shaped, shape. split.
  - intros (-> & -> & ->). reflexivity.
  - intros [= -> -> ->]. auto.
Qed.

Lemma reachable_shaped s : reachable s → shaped s.
Proof.
  induction 1 as [|k s _ IH _].
  - repeat split.
  - apply shaped_shape. rewrite shape_Update. apply shaped_shape. exact IH.
Qed.

(** On a state of the declared sizes every array is a literal list. *)
Ltac explode l :=
  repeat (destruct l as [|? l]; simpl in *; try discriminate).

Ltac explode_world s H :=
  let ms := fresh "ms" in let bl := fresh "bl" in let bs := fresh "bs" in
  let r0 := fresh "r" in let r1 := fresh "r" in
  let q0 := fresh "q" in let q1 := fresh "q" in
  let Hm := fresh "Hm" in let Hb := fresh "Hb" in let Hs := fresh "Hs" in
  destruct s as [ms bl bs ? ? ?];
  destruct H as (Hm & Hb & Hs); simpl in Hm, Hb, Hs;
  destruct bl as [|r0 [|r1 [|? ?]]]; try discriminate;
  destruct bs as [|q0 [|q1 [|? ?]]]; try discriminate;
  simpl in Hb, Hs;
  explode ms; explode r0; explode r1; explode q0; explode q1;
  clear Hm Hb Hs.

(** ** Restart *)

Lemma RestartGame_result (s : World) :
  shaped s →
  RestartGame s =
    mkWorld
      ((λ m, mkMarble (mkModel 0 0 0 false (skin (model m))) false) <$> marbles s)
      ((λ row, (λ i, mkModel (gridX i) 0 (gridZ row) true (Some "default.jpg"))
                 <$> seq 0 kNumBlocksPerRow) <$> seq 0 kNumRows)
      (replicate kNumRows (replicate kNumBlocksPerRow NORMAL))
      false GAME (engineRunning s).
Proof.
  intros H. explode_world s H. reflexivity.
Qed.

Lemma RestartGame_idempotent (s : World) :
  shaped s → RestartGame (RestartGame s) = RestartGame s.
Proof.
  intros H.
  rewrite (RestartGame_result (RestartGame s)).
  - rewrite (RestartGame_result s H). simpl. f_equal.
    rewrite <- list_fmap_compose. apply list_fmap_ext. intros _ m _. reflexivity.
  - apply shaped_shape. rewrite shape_RestartGame. apply shaped_shape. exact H.
Qed.

(** C7.  From any reachable state one [RestartGame] leaves the ten blocks
    NORMAL and visible where [SetupScene] put them, the three marbles
    inactive and invisible, and the phase GAME; a second [RestartGame]
    right after it gives exactly the same state. *)
Theorem RestartGame_resets (s : World) :
  reachable s →
  (∀ row j, (row < kNumRows)%nat → (j < kNumBlocksPerRow)%nat →
     blockState (RestartGame s) row j = NORMAL ∧
     visible (block (RestartGame s) row j) = true ∧
     posX (block (RestartGame s) row j) = posX (block SetupScene row j) ∧
     posY (block (RestartGame s) row j) = posY (block SetupScene row j) ∧
     posZ (block (RestartGame s) row j) = posZ (block SetupScene row j)) ∧
  (∀ i, (i < kMaxMarbles)%nat →
     active (marble (RestartGame s) i) = false ∧
     visible (model (marble (RestartGame s) i)) = false) ∧
  currentState (RestartGame s) = GAME ∧
  RestartGame (RestartGame s) = RestartGame s.
Proof.
  intros Hs%reachable_shaped.
  split; [|split; [|split]].
  - intros row j Hrow Hj. rewrite (RestartGame_result s Hs).
    unfold blockState, block, kNumRows, kNumBlocksPerRow in *. simpl.
    destruct row as [|[|row]]; [| |lia];
      (destruct j as [|[|[|[|[|j]]]]]; [| | | | |lia]); repeat split.
  - intros i Hi. rewrite (RestartGame_result s Hs).
    unfold marble. simpl.
    destruct Hs as (Hlen & _).
    destruct (marbles3 s Hlen) as (m0 & m1 & m2 & ->).
    unfold kMaxMarbles in Hi.
    destruct i as [|[|[|i]]]; [| | |lia]; split; reflexivity.
  - rewrite (RestartGame_result s Hs). reflexivity.
  - apply RestartGame_idempotent, Hs.
Qed.

Lemma RestartGame_resets_witness :
  RestartGame (RestartGame (Update spaceKey SetupScene))
  = RestartGame (Update spaceKey SetupScene).
Proof.
  apply (RestartGame_resets (Update spaceKey SetupScene)).
  apply reach_frame; [apply reach_setup | reflexivity].
Defined.

(** ** What one hit does *)

Lemma onMarble_onMarble i f g s :
  onMarble i f (onMarble i g s) = onMarble i (f ∘ g) s.
Proof. unfold onMarble. simpl. rewrite list_alter_alter_eq. reflexivity. Qed.

Lemma removeMarble_eq i s :
  removeMarble i s = onMarble i (onModel (SetVisible false) ∘ setActive false) s.
Proof. unfold removeMarble. apply onMarble_onMarble. Qed.

Lemma hitBlock_eq i row j s :
  hitBlock i row j s =
    if collides s i row j then
      onBlock row j (dent (blockState s row j))
        (setBlockState row j (damaged (blockState s row j)) (removeMarble i s))
    else s.
Proof.
  unfold hitBlock, collides.
  change (blockState (onMarble i (onModel (SetVisible false))
                        (onMarble i (setActive false) s)) row j)
    with (blockState s row j).
  destruct (blockState s row j); simpl; try reflexivity.
  all: destruct (CheckCollision _ _ _); reflexivity.
Qed.

(** ** Active means visible *)

Lemma Synced_onMarble i f s :
  (∀ m, synced m → synced (f m)) → Synced s → Synced (onMarble i f s).
Proof.
  intros Hf Hs. unfold Synced. simpl. apply Forall_alter; [exact Hs|].
  intros m _. apply Hf.
Qed.

Lemma Synced_removeMarble i s : Synced s → Synced (removeMarble i s).
Proof.
  rewrite removeMarble_eq. apply Synced_onMarble. reflexivity.
Qed.

Lemma Synced_hitBlock i row j s : Synced s → Synced (hitBlock i row j s).
Proof.
  intros Hs. rewrite hitBlock_eq. destruct (collides s i row j); [|exact Hs].
  apply (Synced_removeMarble i s Hs).
Qed.

Lemma Synced_checkBlocks i s : Synced s → Synced (checkBlocks i s).
Proof.
  intros Hs. unfold checkBlocks. apply for_each_inv; [exact Hs|].
  intros row t _ Ht. apply for_each_inv; [exact Ht|].
  intros j u _. apply Synced_hitBlock.
Qed.

Lemma Synced_moveMarble i s : Synced s → Synced (moveMarble i s).
Proof.
  intros Hs. unfold moveMarble. destruct (active (marble s i)); [|exact Hs].
  assert (Hmoved : Synced (onMarble i (onModel (MoveZ kMarbleSpeed)) s))
    by (apply Synced_onMarble; [intros m Hm; exact Hm | exact Hs]).
  destruct (Qlt_bool _ _).
  - apply Synced_removeMarble, Hmoved.
  - apply Synced_checkBlocks, Hmoved.
Qed.

Lemma Synced_moveMarbles s : Synced s → Synced (moveMarbles s).
Proof.
  intros Hs. unfold moveMarbles. apply for_each_inv; [exact Hs|].
  intros i t _. apply Synced_moveMarble.
Qed.

Lemma Synced_ShootMarble s : Synced s → Synced (ShootMarble s).
Proof.
  intros Hs. unfold ShootMarble. generalize (seq 0 kMaxMarbles). intros ixs.
  induction ixs as [|i ixs IH]; simpl; [exact Hs|].
  destruct (active (marble s i)); simpl; [exact IH|].
  rewrite !onMarble_onMarble. apply Synced_onMarble; [reflexivity | exact Hs].
Qed.

Lemma Synced_RestartGame s : Synced s → Synced (RestartGame s).
Proof.
  intros Hs. unfold RestartGame.
  change (Synced (setCurrentState GAME (setGameOverText false ?t))) with (Synced t).
  apply for_each_inv.
  - apply for_each_inv; [exact Hs|]. intros i t _ Ht. simpl.
    rewrite !onMarble_onMarble. apply Synced_onMarble; [reflexivity | exact Ht].
  - intros row t _ Ht. apply for_each_inv; [exact Ht|]. intros j u _ Hu. exact Hu.
Qed.

Lemma Synced_checkWin s : Synced s → Synced (checkWin s).
Proof. unfold checkWin. destruct (allDead s); intros Hs; exact Hs. Qed.

Lemma Synced_Update k s : Synced s → Synced (Update k s).
Proof.
  intros Hs. unfold Update. destruct (currentState s).
  - destruct (KeyHit k Key_Space); exact Hs.
  - unfold UpdateGame. apply Synced_checkWin.
    assert (H1 : Synced (if KeyHit k Key_Space then ShootMarble s else s))
      by (destruct (KeyHit k Key_Space); [apply Synced_ShootMarble|]; exact Hs).
    apply Synced_moveMarbles in H1.
    destruct (KeyHit k Key_0); [apply Synced_RestartGame|]; exact H1.
  - assert (H1 : Synced (if KeyHit k Key_0 then RestartGame s else s))
      by (destruct (KeyHit k Key_0); [apply Synced_RestartGame|]; exact Hs).
    destruct (KeyHit k Key_Escape); exact H1.
Qed.

(** C8.  In every reachable state, and so after every frame, the active
    flag of each of the three marbles equals the visibility of its model.
    Each operation keeps it so: firing activates and shows, the
    out-of-bounds rule, a collision and restart deactivate and hide, and
    setup creates the marbles inactive and hidden. *)
Theorem active_iff_visible (s : World) :
  reachable s →
  (∀ i, (i < kMaxMarbles)%nat → active (marble s i) = visible (model (marble s i))) ∧
  (∀ k i, (i < kMaxMarbles)%nat →
     active (marble (Update k s) i) = visible (model (marble (Update k s) i))) ∧
  Synced (ShootMarble s) ∧
  (∀ i, Synced (removeMarble i s)) ∧
  (∀ i row j, Synced (hitBlock i row j s)) ∧
  Synced (RestartGame s).
Proof.
  intros Hr.
  assert (Hs : Synced s).
  { induction Hr as [|k s _ IH _]; [|apply Synced_Update, IH].
    repeat constructor. }
  assert (Hpt : ∀ t, Synced t → reachable t → ∀ i, (i < kMaxMarbles)%nat →
                     active (marble t i) = visible (model (marble t i))).
  { intros t Ht (Hlen & _)%reachable_shaped i Hi. unfold marble.
    rewrite <- Hlen in Hi. apply lookup_lt_is_Some_2 in Hi as [m Hm].
    rewrite (list_lookup_total_correct _ _ _ Hm).
    exact (Forall_lookup_1 _ _ _ _ Ht Hm). }
  split; [|split; [|split; [|split; [|split]]]].
  - intros i Hi. apply Hpt; assumption.
  - intros k i Hi.
    destruct (engineRunning s) eqn:Hrun.
    + apply Hpt; [apply Synced_Update, Hs | apply reach_frame; assumption | exact Hi].
    + pose proof (reachable_shaped s Hr) as Hsh.
      assert (Hsh' : shaped (Update k s))
        by (apply shaped_shape; rewrite shape_Update; apply shaped_shape, Hsh).
      destruct Hsh' as (Hlen & _). unfold marble.
      rewrite <- Hlen in Hi. apply lookup_lt_is_Some_2 in Hi as [m Hm].
      rewrite (list_lookup_total_correct _ _ _ Hm).
      exact (Forall_lookup_1 _ _ _ _ (Synced_Update k s Hs) Hm).
  - apply Synced_ShootMarble, Hs.
  - intros i. apply Synced_removeMarble, Hs.
  - intros i row j. apply Synced_hitBlock, Hs.
  - apply Synced_RestartGame, Hs.
Qed.

Lemma active_iff_visible_witness :
  active (marble (Update spaceKey (Update spaceKey SetupScene)) 0)
  = visible (model (marble (Update spaceKey (Update spaceKey SetupScene)) 0)).
Proof.
  refine (proj1 (active_iff_visible (Update spaceKey (Update spaceKey SetupScene)) _)
                0%nat _).
  - apply reach_frame; [|reflexivity].
    apply reach_frame; [apply reach_setup | reflexivity].
  - unfold kMaxMarbles. lia.
Defined.

(** ** Reading a cell after a write *)

Lemma lookup2_alter {A : Type} `{!Inhabited A} (f : A → A) (row j r c : nat)
    (l : list (list A)) :
  (alter (alter f j) row l !!! r) !!! c =
    if decide (row = r ∧ j = c ∧ (row < length l)%nat ∧ (j < length (l !!! row))%nat)
    then f ((l !!! row) !!! j) else (l !!! r) !!! c.
Proof.
  rewrite list_lookup_total_alter.
  destruct (decide (row = r ∧ (row < length l)%nat)) as [[-> Hr]|Hn].
  - rewrite list_lookup_total_alter.
    destruct (decide (j = c ∧ (j < length (l !!! r))%nat)) as [[-> Hc]|Hn];
      case_decide as H; try reflexivity; exfalso; tauto.
  - case_decide as H; [exfalso; tauto | reflexivity].
Qed.

Lemma lookup2_alter_ne {A : Type} `{!Inhabited A} (f : A → A) (row j r c : nat)
    (l : list (list A)) :
  (row, j) ≠ (r, c) → (alter (alter f j) row l !!! r) !!! c = (l !!! r) !!! c.
Proof.
  intros Hne. rewrite lookup2_alter. case_decide as H; [|reflexivity].
  destruct H as (-> & -> & _). congruence.
Qed.

Lemma lookup2_alter_keep {A B : Type} `{!Inhabited A} (g : A → B) (f : A → A)
    (row j r c : nat) (l : list (list A)) :
  (∀ x, g (f x) = g x) →
  g ((alter (alter f j) row l !!! r) !!! c) = g ((l !!! r) !!! c).
Proof.
  intros Hg. rewrite lookup2_alter. case_decide as H; [|reflexivity].
  destruct H as (-> & -> & _). apply Hg.
Qed.

Lemma checkBlocks_hitAll i s : checkBlocks i s = hitAll i grid s.
Proof.
  unfold checkBlocks, for_each, hitAll, grid, kNumRows, kNumBlocksPerRow.
  cbn [seq foldl mbind list_bind fmap list_fmap app fst snd]. reflexivity.
Qed.

Lemma moveMarbles_unroll s :
  moveMarbles s = moveMarble 2 (moveMarble 1 (moveMarble 0 s)).
Proof.
  unfold moveMarbles, for_each, kMaxMarbles. cbn [seq foldl]. reflexivity.
Qed.

(** ** The damage of a block only grows *)

Lemma blockState_written row j v f t r c :
  blockState (onBlock row j f (setBlockState row j v t)) r c =
    if decide (row = r ∧ j = c ∧ (row < length (blockStates t))%nat
               ∧ (j < length (blockStates t !!! row))%nat)
    then v else blockState t r c.
Proof. unfold blockState. simpl. apply (lookup2_alter (λ _, v)). Qed.

Lemma blockState_hitBlock_other i row j r c s :
  (row, j) ≠ (r, c) → blockState (hitBlock i row j s) r c = blockState s r c.
Proof.
  intros Hne. rewrite hitBlock_eq. destruct (collides s i row j); [|reflexivity].
  rewrite blockState_written. case_decide as H; [|reflexivity].
  destruct H as (-> & -> & _). congruence.
Qed.

Lemma blockState_hitBlock i row j s :
  blockState (hitBlock i row j s) row j = blockState s row j ∨
  (collides s i row j = true ∧
   blockState (hitBlock i row j s) row j = damaged (blockState s row j)).
Proof.
  rewrite hitBlock_eq. destruct (collides s i row j); [|left; reflexivity].
  rewrite blockState_written.
  case_decide; [right; split; reflexivity | left; reflexivity].
Qed.

Lemma collides_not_DEAD s i row j :
  collides s i row j = true → blockState s row j ≠ DEAD.
Proof.
  unfold collides. intros [H _]%andb_true_iff Hd. rewrite Hd in H. discriminate.
Qed.

Lemma hitBlock_skips_DEAD i row j s :
  blockState s row j = DEAD → hitBlock i row j s = s.
Proof.
  intros Hd. rewrite hitBlock_eq. unfold collides. rewrite Hd. reflexivity.
Qed.

Lemma blockState_hitBlock_step i row j r c s :
  blockState (hitBlock i row j s) r c = blockState s r c ∨
  ((row, j) = (r, c) ∧
   advances (blockState s r c) (blockState (hitBlock i row j s) r c)).
Proof.
  destruct (decide ((row, j) = (r, c))) as [[= -> ->]|Hne].
  - destruct (blockState_hitBlock i r c s) as [H|[Hc H]]; [left; exact H|].
    right. split; [reflexivity|]. rewrite H.
    apply collides_not_DEAD in Hc.
    destruct (blockState s r c); [constructor | constructor | congruence].
  - left. apply blockState_hitBlock_other, Hne.
Qed.

Lemma advances_rank a b : advances a b → rank b = Datatypes.S (rank a).
Proof. destruct 1; reflexivity. Qed.

Lemma rank_hitBlock i row j r c s :
  (rank (blockState s r c) ≤ rank (blockState (hitBlock i row j s) r c))%nat.
Proof.
  destruct (blockState_hitBlock_step i row j r c s) as [->|[_ H]]; [lia|].
  apply advances_rank in H. lia.
Qed.

Lemma rank_checkBlocks i r c s :
  (rank (blockState s r c) ≤ rank (blockState (checkBlocks i s) r c))%nat.
Proof.
  unfold checkBlocks.
  apply (for_each_inv (λ t, (rank (blockState s r c) ≤ rank (blockState t r c))%nat));
    [lia|].
  intros row t _ Ht.
  apply (for_each_inv (λ u, (rank (blockState s r c) ≤ rank (blockState u r c))%nat));
    [exact Ht|].
  intros j u _ Hu. etrans; [exact Hu | apply rank_hitBlock].
Qed.

Lemma rank_moveMarble i r c s :
  (rank (blockState s r c) ≤ rank (blockState (moveMarble i s) r c))%nat.
Proof.
  unfold moveMarble. destruct (active (marble s i)); [|lia].
  destruct (Qlt_bool _ _); [reflexivity|].
  apply (rank_checkBlocks i r c (onMarble i (onModel (MoveZ kMarbleSpeed)) s)).
Qed.

Lemma rank_moveMarbles r c s :
  (rank (blockState s r c) ≤ rank (blockState (moveMarbles s) r c))%nat.
Proof.
  unfold moveMarbles.
  apply (for_each_inv (λ t, (rank (blockState s r c) ≤ rank (blockState t r c))%nat));
    [lia|].
  intros i t _ Ht. etrans; [exact Ht | apply rank_moveMarble].
Qed.

Lemma blockStates_ShootMarble s : blockStates (ShootMarble s) = blockStates s.
Proof.
  unfold ShootMarble. generalize (seq 0 kMaxMarbles). intros ixs.
  induction ixs as [|i ixs IH]; simpl; [reflexivity|].
  destruct (active (marble s i)); simpl; [exact IH | reflexivity].
Qed.

Lemma blocks_ShootMarble s : blocks (ShootMarble s) = blocks s.
Proof.
  unfold ShootMarble. generalize (seq 0 kMaxMarbles). intros ixs.
  induction ixs as [|i ixs IH]; simpl; [reflexivity|].
  destruct (active (marble s i)); simpl; [exact IH | reflexivity].
Qed.

Lemma blockStates_checkWin s : blockStates (checkWin s) = blockStates s.
Proof. unfold checkWin. destruct (allDead s); reflexivity. Qed.

Lemma blocks_checkWin s : blocks (checkWin s) = blocks s.
Proof. unfold checkWin. destruct (allDead s); reflexivity. Qed.

Lemma marbles_checkWin s : marbles (checkWin s) = marbles s.
Proof. unfold checkWin. destruct (allDead s); reflexivity. Qed.

(** Unless restart runs, a frame never lowers the damage of a block. *)
Lemma rank_Update k r c s :
  KeyHit k Key_0 = false ∨ currentState s = MENU →
  (rank (blockState s r c) ≤ rank (blockState (Update k s) r c))%nat.
Proof.
  intros Hk. unfold Update. destruct (currentState s) eqn:Hp.
  - destruct (KeyHit k Key_Space); reflexivity.
  - destruct Hk as [Hk|]; [|discriminate].
    unfold UpdateGame. rewrite Hk. unfold blockState at 2.
    rewrite blockStates_checkWin. fold (blockState (moveMarbles
      (if KeyHit k Key_Space then ShootMarble s else s)) r c).
    etrans; [|apply rank_moveMarbles].
    destruct (KeyHit k Key_Space); [|lia].
    unfold blockState. rewrite blockStates_ShootMarble. lia.
  - destruct Hk as [Hk|]; [|discriminate].
    rewrite Hk. destruct (KeyHit k Key_Escape); reflexivity.
Qed.

(** ** No DEAD block is shown *)

Lemma DeadHidden_lookup s r c :
  DeadHidden s → blockState s r c = DEAD → visible (block s r c) = false.
Proof.
  unfold DeadHidden, blockState, block. intros H.
  destruct (blockStates s !! r) as [x|] eqn:Hx.
  - destruct (Forall2_lookup_l _ _ _ _ _ H Hx) as (y & Hy & Hxy).
    rewrite (list_lookup_total_correct _ _ _ Hx), (list_lookup_total_correct _ _ _ Hy).
    destruct (x !! c) as [a|] eqn:Ha.
    + destruct (Forall2_lookup_l _ _ _ _ _ Hxy Ha) as (b & Hb & Hab).
      rewrite (list_lookup_total_correct _ _ _ Ha), (list_lookup_total_correct _ _ _ Hb).
      exact Hab.
    + rewrite (list_lookup_total_alt x), Ha. discriminate.
  - rewrite (list_lookup_total_alt (blockStates s)), Hx. discriminate.
Qed.

Lemma DeadHidden_hitBlock i row j s : DeadHidden s → DeadHidden (hitBlock i row j s).
Proof.
  intros H. rewrite hitBlock_eq. destruct (collides s i row j); [|exact H].
  unfold DeadHidden. simpl. apply Forall2_alter; [exact H|].
  intros x y Hx Hy Hxy. apply Forall2_alter; [exact Hxy|].
  intros a b Ha Hb Hab. unfold blockState.
  rewrite (list_lookup_total_correct _ _ _ Hx), (list_lookup_total_correct _ _ _ Ha).
  destruct a; simpl; [discriminate | reflexivity | exact Hab].
Qed.

Lemma DeadHidden_moveMarble i s : DeadHidden s → DeadHidden (moveMarble i s).
Proof.
  intros H. unfold moveMarble. destruct (active (marble s i)); [|exact H].
  destruct (Qlt_bool _ _); [exact H|].
  unfold checkBlocks. apply for_each_inv; [exact H|].
  intros row t _ Ht. apply for_each_inv; [exact Ht|].
  intros j u _. apply DeadHidden_hitBlock.
Qed.

Lemma DeadHidden_RestartGame s : shaped s → DeadHidden (RestartGame s).
Proof.
  intros H. rewrite (RestartGame_result s H). unfold DeadHidden. simpl.
  repeat constructor; discriminate.
Qed.

Lemma DeadHidden_Update k s : shaped s → DeadHidden s → DeadHidden (Update k s).
Proof.
  intros Hsh H. unfold Update. destruct (currentState s).
  - destruct (KeyHit k Key_Space); exact H.
  - unfold UpdateGame.
    assert (H1 : DeadHidden (if KeyHit k Key_Space then ShootMarble s else s)).
    { destruct (KeyHit k Key_Space); [|exact H].
      unfold DeadHidden. rewrite blockStates_ShootMarble, blocks_ShootMarble. exact H. }
    assert (H2 : DeadHidden (moveMarbles (if KeyHit k Key_Space then ShootMarble s else s))).
    { unfold moveMarbles. apply for_each_inv; [exact H1|].
      intros i t _. apply DeadHidden_moveMarble. }
    unfold DeadHidden. rewrite blockStates_checkWin, blocks_checkWin.
    destruct (KeyHit k Key_0); [|exact H2].
    apply DeadHidden_RestartGame, shaped_shape.
    rewrite shape_moveMarbles.
    destruct (KeyHit k Key_Space); rewrite ?shape_ShootMarble; apply shaped_shape, Hsh.
  - assert (H1 : DeadHidden (if KeyHit k Key_0 then RestartGame s else s))
      by (destruct (KeyHit k Key_0); [apply DeadHidden_RestartGame, Hsh | exact H]).
    destruct (KeyHit k Key_Escape); exact H1.
Qed.

Lemma reachable_DeadHidden s : reachable s → DeadHidden s.
Proof.
  induction 1 as [|k s Hr IH _].
  - unfold DeadHidden. simpl. repeat constructor; discriminate.
  - apply DeadHidden_Update; [apply reachable_shaped, Hr | exact IH].
Qed.

(** C6.  A hit advances the state of the block it strikes by exactly one
    step of NORMAL, HIT_ONCE, DEAD and touches no other block, and the
    marble pass of a frame never moves a state back.  A DEAD block of a
    reachable state is not visible; the collision test passes it over; and
    a frame leaves it DEAD unless that frame runs restart. *)
Theorem block_damage_monotone (s : World) :
  (∀ i row j r c,
     blockState (hitBlock i row j s) r c = blockState s r c ∨
     ((row, j) = (r, c) ∧
      advances (blockState s r c) (blockState (hitBlock i row j s) r c))) ∧
  (∀ r c, (rank (blockState s r c) ≤ rank (blockState (moveMarbles s) r c))%nat) ∧
  (reachable s → ∀ r c, blockState s r c = DEAD → visible (block s r c) = false) ∧
  (∀ i r c, blockState s r c = DEAD → hitBlock i r c s = s) ∧
  (∀ k r c, blockState s r c = DEAD →
     blockState (Update k s) r c = DEAD ∨
     (KeyHit k Key_0 = true ∧ currentState s ≠ MENU)).
Proof.
  split; [|split; [|split; [|split]]].
  - intros i row j r c. apply blockState_hitBlock_step.
  - intros r c. apply rank_moveMarbles.
  - intros Hr r c. apply DeadHidden_lookup, reachable_DeadHidden, Hr.
  - intros i r c. apply hitBlock_skips_DEAD.
  - intros k r c Hd.
    destruct (KeyHit k Key_0) eqn:Hk; [destruct (currentState s) eqn:Hp|].
    + left. pose proof (rank_Update k r c s (or_intror Hp)) as H.
      rewrite Hd in H. destruct (blockState (Update k s) r c); simpl in H; [lia|lia|reflexivity].
    + right. split; [reflexivity | discriminate].
    + right. split; [reflexivity | discriminate].
    + left. pose proof (rank_Update k r c s (or_introl Hk)) as H.
      rewrite Hd in H. destruct (blockState (Update k s) r c); simpl in H; [lia|lia|reflexivity].
Qed.

(** ** Hits move neither marbles nor blocks *)

Lemma CheckCollision_place m1 m1' m2 m2' r :
  place m1 = place m1' → place m2 = place m2' →
  CheckCollision m1 m2 r = CheckCollision m1' m2' r.
Proof.
  unfold place, CheckCollision, GetX, GetZ. intros [= -> _ ->] [= -> _ ->]. reflexivity.
Qed.

Lemma place_block_hitBlock i row j r c s :
  place (block (hitBlock i row j s) r c) = place (block s r c).
Proof.
  rewrite hitBlock_eq. destruct (collides s i row j); [|reflexivity].
  unfold block. simpl. apply (lookup2_alter_keep place).
  intros b. destruct (blockState s row j); reflexivity.
Qed.

Lemma marble_onMarble_other i i' f s :
  i ≠ i' → marble (onMarble i' f s) i = marble s i.
Proof.
  intros Hne. unfold marble. simpl. apply list_lookup_total_alter_ne. congruence.
Qed.

Lemma marble_onMarble_keep {B : Type} (g : Marble → B) i i' f s :
  (∀ m, g (f m) = g m) → g (marble (onMarble i' f s) i) = g (marble s i).
Proof.
  intros Hg. unfold marble. simpl. rewrite list_lookup_total_alter.
  case_decide as H; [|reflexivity]. destruct H as [-> _]. apply Hg.
Qed.

Lemma marble_onMarble_same i f s :
  (i < length (marbles s))%nat → marble (onMarble i f s) i = f (marble s i).
Proof. intros Hi. unfold marble. simpl. apply list_lookup_total_alter_eq, Hi. Qed.

Lemma active_in_range s i : active (marble s i) = true → (i < length (marbles s))%nat.
Proof.
  intros Ha. destruct (decide (i < length (marbles s))%nat) as [|Hn]; [assumption|].
  unfold marble in Ha. rewrite list_lookup_total_alt, lookup_ge_None_2 in Ha by lia.
  discriminate.
Qed.

Lemma marble_hitBlock_other i i' row j s :
  i ≠ i' → marble (hitBlock i' row j s) i = marble s i.
Proof.
  intros Hne. rewrite hitBlock_eq. destruct (collides s i' row j); [|reflexivity].
  rewrite removeMarble_eq. apply (marble_onMarble_other i i' _ s Hne).
Qed.

Lemma place_marble_hitBlock i i' row j s :
  place (model (marble (hitBlock i' row j s) i)) = place (model (marble s i)).
Proof.
  rewrite hitBlock_eq. destruct (collides s i' row j); [|reflexivity].
  rewrite removeMarble_eq.
  apply (marble_onMarble_keep (λ m, place (model m)) i i' _ s). reflexivity.
Qed.

(** What [checkBlocks] keeps: every marble but its own, and the place of
    every model. *)
Lemma checkBlocks_keeps i s :
  (∀ i', i' ≠ i → marble (checkBlocks i s) i' = marble s i') ∧
  (∀ i', place (model (marble (checkBlocks i s) i')) = place (model (marble s i'))) ∧
  (∀ r c, place (block (checkBlocks i s) r c) = place (block s r c)).
Proof.
  unfold checkBlocks.
  set (P := λ t : World,
    (∀ i', i' ≠ i → marble t i' = marble s i') ∧
    (∀ i', place (model (marble t i')) = place (model (marble s i'))) ∧
    (∀ r c, place (block t r c) = place (block s r c))).
  apply (for_each_inv P); [repeat split|].
  intros row t _ Ht. apply (for_each_inv P); [exact Ht|].
  intros j u _ (Hu1 & Hu2 & Hu3). repeat split.
  - intros i' Hi'. rewrite marble_hitBlock_other by exact Hi'. apply Hu1, Hi'.
  - intros i'. rewrite place_marble_hitBlock. apply Hu2.
  - intros r c. rewrite place_block_hitBlock. apply Hu3.
Qed.

Lemma moveMarble_keeps i s :
  (∀ i', i' ≠ i → marble (moveMarble i s) i' = marble s i') ∧
  (∀ r c, place (block (moveMarble i s) r c) = place (block s r c)).
Proof.
  unfold moveMarble. destruct (active (marble s i)); [|split; reflexivity].
  destruct (Qlt_bool _ _).
  - split; [|reflexivity]. intros i' Hi'. rewrite removeMarble_eq.
    rewrite !marble_onMarble_other by exact Hi'. reflexivity.
  - destruct (checkBlocks_keeps i (onMarble i (onModel (MoveZ kMarbleSpeed)) s))
      as (H1 & _ & H3).
    split.
    + intros i' Hi'. rewrite H1 by exact Hi'. apply marble_onMarble_other, Hi'.
    + intros r c. rewrite H3. reflexivity.
Qed.

Lemma reaches_moveMarble_other i i' r c s :
  i ≠ i' → reaches (moveMarble i' s) i r c = reaches s i r c.
Proof.
  intros Hne. destruct (moveMarble_keeps i' s) as (H1 & H2).
  unfold reaches. rewrite (H1 i Hne).
  rewrite (CheckCollision_place _ (MoveZ kMarbleSpeed (model (marble s i)))
             _ (block s r c)); [reflexivity | reflexivity | apply H2].
Qed.

(** ** How far one frame can damage a block *)

Lemma hitAll_cons i cell cells s :
  hitAll i (cell :: cells) s = hitAll i cells (hitBlock i cell.1 cell.2 s).
Proof. reflexivity. Qed.

Lemma blockState_hitAll_notin i cells r c s :
  (r, c) ∉ cells → blockState (hitAll i cells s) r c = blockState s r c.
Proof.
  revert s. induction cells as [|[row j] cells IH]; intros s Hnotin; [reflexivity|].
  apply not_elem_of_cons in Hnotin as [Hne Hnotin].
  rewrite hitAll_cons, IH by exact Hnotin.
  apply blockState_hitBlock_other. simpl. intros Heq. apply Hne. symmetry. exact Heq.
Qed.

Lemma rank_hitAll i cells r c s :
  NoDup cells →
  (rank (blockState (hitAll i cells s) r c)
   ≤ rank (blockState s r c)
     + if CheckCollision (model (marble s i)) (block s r c) 1 then 1 else 0)%nat.
Proof.
  intros Hnd. revert s.
  induction Hnd as [|[row j] cells Hnotin _ IH]; intros s; [simpl; lia|].
  rewrite hitAll_cons. simpl.
  destruct (decide ((row, j) = (r, c))) as [[= -> ->]|Hne].
  - rewrite blockState_hitAll_notin by exact Hnotin.
    destruct (blockState_hitBlock i r c s) as [->|[Hc ->]]; [lia|].
    unfold collides in Hc. apply andb_true_iff in Hc as [_ ->].
    destruct (blockState s r c); simpl; lia.
  - etrans; [apply IH|].
    rewrite (blockState_hitBlock_other i row j r c s Hne).
    rewrite (CheckCollision_place _ (model (marble s i)) _ (block s r c));
      [lia | apply place_marble_hitBlock | apply place_block_hitBlock].
Qed.

Lemma NoDup_grid : NoDup grid.
Proof. apply (bool_decide_unpack _). vm_compute. exact I. Qed.

(** From here on [simpl] leaves the functions of the game folded. *)
Arguments hitBlock : simpl never.
Arguments checkBlocks : simpl never.
Arguments removeMarble : simpl never.
Arguments moveMarble : simpl never.
Arguments moveMarbles : simpl never.
Arguments ShootMarble : simpl never.
Arguments RestartGame : simpl never.
Arguments checkWin : simpl never.
Arguments UpdateGame : simpl never.
Arguments Update : simpl never.

Lemma rank_moveMarble_reaches i r c s :
  (rank (blockState (moveMarble i s) r c)
   ≤ rank (blockState s r c) + if reaches s i r c then 1 else 0)%nat.
Proof.
  unfold moveMarble, reaches.
  destruct (active (marble s i)) eqn:Ha; [|simpl; lia].
  apply active_in_range in Ha.
  rewrite (marble_onMarble_same i _ s Ha).
  cbn [andb onModel model].
  destruct (Qlt_bool _ _); cbn [negb andb].
  - unfold removeMarble, blockState. cbn [blockStates onMarble]. lia.
  - rewrite checkBlocks_hitAll.
    etrans; [apply rank_hitAll, NoDup_grid|].
    rewrite (marble_onMarble_same i _ s Ha). reflexivity.
Qed.

Lemma rank_moveMarbles_hitCount r c s :
  (rank (blockState (moveMarbles s) r c) ≤ rank (blockState s r c) + hitCount s r c)%nat.
Proof.
  rewrite moveMarbles_unroll.
  pose proof (rank_moveMarble_reaches 0 r c s) as H0.
  pose proof (rank_moveMarble_reaches 1 r c (moveMarble 0 s)) as H1.
  pose proof (rank_moveMarble_reaches 2 r c (moveMarble 1 (moveMarble 0 s))) as H2.
  rewrite (reaches_moveMarble_other 1 0) in H1 by lia.
  rewrite (reaches_moveMarble_other 2 1), (reaches_moveMarble_other 2 0) in H2 by lia.
  unfold hitCount, kMaxMarbles. cbn [seq List.filter].
  destruct (reaches s 0 r c), (reaches s 1 r c), (reaches s 2 r c);
    cbn [length] in *; lia.
Qed.

(** ** The win check *)

Lemma scanRow_spec s row js acc :
  scanRow s row js acc = true ↔
  acc = true ∧ ∀ j, j ∈ js → blockState s row j = DEAD.
Proof.
  induction js as [|j js IH]; simpl.
  - split; [intros ->; split; [reflexivity|]; intros j Hj; inversion Hj | intros [-> _]; reflexivity].
  - destruct (BlockState_eqb (blockState s row j) DEAD) eqn:He; simpl.
    + apply BlockState_eqb_eq in He. rewrite IH. split; intros [Ha Hall]; (split; [exact Ha|]).
      * intros j' [->|Hj']%elem_of_cons; [exact He | apply Hall, Hj'].
      * intros j' Hj'. apply Hall. apply elem_of_cons. right. exact Hj'.
    + split; [discriminate|]. intros [_ Hall].
      rewrite <- not_true_iff_false, BlockState_eqb_eq in He.
      exfalso. apply He, Hall. apply elem_of_cons. left. reflexivity.
Qed.

Lemma allDead_iff s : allDead s = true ↔ AllDead s.
Proof.
  unfold allDead, AllDead, kNumRows. cbn [seq foldl]. rewrite !scanRow_spec.
  unfold kNumBlocksPerRow. split.
  - intros [[_ H0] H1] row j Hrow Hj.
    destruct row as [|[|row]]; [apply H0 | apply H1 | lia];
      apply elem_of_seq; lia.
  - intros H. repeat split; intros j Hj%elem_of_seq; apply H; lia.
Qed.

Lemma currentState_for_each (n : nat) (body : nat → World → World) (s : World) :
  (∀ i t, currentState (body i t) = currentState t) →
  currentState (for_each n body s) = currentState s.
Proof.
  intros Hb. apply (for_each_inv (λ t, currentState t = currentState s)); [reflexivity|].
  intros i t _ Ht. rewrite Hb. exact Ht.
Qed.

Lemma currentState_hitBlock i row j s : currentState (hitBlock i row j s) = currentState s.
Proof.
  rewrite hitBlock_eq. destruct (collides s i row j); reflexivity.
Qed.

Lemma currentState_moveMarble i s : currentState (moveMarble i s) = currentState s.
Proof.
  unfold moveMarble. destruct (active (marble s i)); [|reflexivity].
  destruct (Qlt_bool _ _); [reflexivity|].
  unfold checkBlocks. rewrite currentState_for_each; [reflexivity|].
  intros row t. apply currentState_for_each. intros j u. apply currentState_hitBlock.
Qed.

Lemma currentState_moveMarbles s : currentState (moveMarbles s) = currentState s.
Proof.
  unfold moveMarbles. apply currentState_for_each. intros i t. apply currentState_moveMarble.
Qed.

Lemma currentState_ShootMarble s : currentState (ShootMarble s) = currentState s.
Proof.
  unfold ShootMarble. generalize (seq 0 kMaxMarbles). intros ixs.
  induction ixs as [|i ixs IH]; simpl; [reflexivity|].
  destruct (active (marble s i)); simpl; [exact IH | reflexivity].
Qed.

Lemma currentState_RestartGame s : currentState (RestartGame s) = GAME.
Proof. reflexivity. Qed.

(** The state the win check of a GAME frame looks at. *)
Lemma UpdateGame_checked k s :
  currentState s = GAME →
  ∃ t, Update k s = checkWin t ∧ currentState t = GAME ∧
       t = (if KeyHit k Key_0
            then RestartGame (moveMarbles (if KeyHit k Key_Space then ShootMarble s else s))
            else moveMarbles (if KeyHit k Key_Space then ShootMarble s else s)).
Proof.
  intros Hp. eexists. split; [|split; [|reflexivity]].
  - unfold Update. rewrite Hp. unfold UpdateGame.
    destruct (KeyHit k Key_0); reflexivity.
  - destruct (KeyHit k Key_0); [apply currentState_RestartGame|].
    rewrite currentState_moveMarbles.
    destruct (KeyHit k Key_Space); rewrite ?currentState_ShootMarble; exact Hp.
Qed.






Lemma blockState_RestartGame s r c :
  shaped s → (r < kNumRows)%nat → (c < kNumBlocksPerRow)%nat →
  blockState (RestartGame s) r c = NORMAL.
Proof.
  intros Hs Hr Hc. rewrite (RestartGame_result s Hs).
  unfold blockState, kNumRows, kNumBlocksPerRow in *. simpl.
  destruct r as [|[|r]]; [| |lia];
    (destruct c as [|[|[|[|[|c]]]]]; [| | | | |lia]); reflexivity.
Qed.

(** ** The flight of a marble *)

Lemma marble_ShootMarble_active i s :
  active (marble s i) = true → marble (ShootMarble s) i = marble s i.
Proof.
  intros Ha. unfold ShootMarble. generalize (seq 0 kMaxMarbles). intros ixs.
  induction ixs as [|i' ixs IH]; simpl; [reflexivity|].
  destruct (active (marble s i')) eqn:Ha'; simpl; [exact IH|].
  assert (Hne : i ≠ i') by (intros ->; congruence).
  rewrite !marble_onMarble_other by exact Hne. reflexivity.
Qed.

Lemma moveMarble_out i s :
  active (marble s i) = true →
  30 < posZ (model (marble s i)) + kMarbleSpeed →
  moveMarble i s = removeMarble i (onMarble i (onModel (MoveZ kMarbleSpeed)) s).
Proof.
  intros Ha Hz. unfold moveMarble. rewrite Ha.
  rewrite (marble_onMarble_same i _ s (active_in_range s i Ha)).
  apply Qlt_bool_iff in Hz. simpl. unfold GetZ. simpl. rewrite Hz. reflexivity.
Qed.

Lemma moveMarble_in i s :
  active (marble s i) = true →
  posZ (model (marble s i)) + kMarbleSpeed <= 30 →
  moveMarble i s = checkBlocks i (onMarble i (onModel (MoveZ kMarbleSpeed)) s).
Proof.
  intros Ha Hz. unfold moveMarble. rewrite Ha.
  rewrite (marble_onMarble_same i _ s (active_in_range s i Ha)).
  apply Qlt_bool_false_iff in Hz. simpl. unfold GetZ. simpl. rewrite Hz. reflexivity.
Qed.

Lemma posZ_moveMarble_own i s :
  active (marble s i) = true →
  posZ (model (marble (moveMarble i s) i)) = posZ (model (marble s i)) + kMarbleSpeed.
Proof.
  intros Ha. pose proof (active_in_range s i Ha) as Hi.
  assert (Hmoved : posZ (model (marble (onMarble i (onModel (MoveZ kMarbleSpeed)) s) i))
                   = posZ (model (marble s i)) + kMarbleSpeed)
    by (rewrite (marble_onMarble_same i _ s Hi); reflexivity).
  destruct (Qlt_le_dec 30 (posZ (model (marble s i)) + kMarbleSpeed)) as [Hz|Hz].
  - rewrite (moveMarble_out i s Ha Hz), removeMarble_eq, <- Hmoved.
    apply (marble_onMarble_keep (λ m, posZ (model m))). reflexivity.
  - rewrite (moveMarble_in i s Ha Hz), <- Hmoved.
    destruct (checkBlocks_keeps i (onMarble i (onModel (MoveZ kMarbleSpeed)) s))
      as (_ & Hplace & _).
    specialize (Hplace i). unfold place in Hplace. congruence.
Qed.

Lemma posZ_moveMarbles i s :
  (i < kMaxMarbles)%nat → active (marble s i) = true →
  posZ (model (marble (moveMarbles s) i)) = posZ (model (marble s i)) + kMarbleSpeed.
Proof.
  intros Hi Ha. rewrite moveMarbles_unroll. unfold kMaxMarbles in Hi.
  pose proof (λ j t, proj1 (moveMarble_keeps j t)) as Hother.
  destruct i as [|[|[|i]]]; [| | |lia].
  - rewrite !Hother by lia. apply posZ_moveMarble_own, Ha.
  - rewrite (Hother 2%nat) by lia.
    rewrite posZ_moveMarble_own by (rewrite Hother by lia; exact Ha).
    rewrite Hother by lia. reflexivity.
  - rewrite posZ_moveMarble_own by (rewrite !Hother by lia; exact Ha).
    rewrite !Hother by lia. reflexivity.
Qed.

Lemma checkBlocks_miss i s :
  (∀ row j, (row < kNumRows)%nat → (j < kNumBlocksPerRow)%nat →
            collides s i row j = false) →
  checkBlocks i s = s.
Proof.
  intros H. unfold checkBlocks.
  apply (for_each_inv (λ t, t = s)); [reflexivity|].
  intros row t Hrow ->.
  apply (for_each_inv (λ t, t = s)); [reflexivity|].
  intros j t Hj ->. rewrite hitBlock_eq, H by assumption. reflexivity.
Qed.

(** C4, as the code has it.  The marble pass of a GAME frame adds the
    fixed speed to the z-position of every marble in flight, so a frame
    that does not restart leaves the marble exactly that much further, and
    strictly further; a restart in the frame puts it back at the origin.
    The out-of-bounds rule takes the marble out exactly when the new
    z-position exceeds 30: the marble is then inactive and hidden and no
    block and no block state has changed; otherwise the marble goes on to
    the collision scan, and stays in flight when it collides with nothing. *)
Theorem marble_advance (s : World) (i : nat) :
  (i < kMaxMarbles)%nat →
  active (marble s i) = true →
  posZ (model (marble (moveMarbles s) i)) = posZ (model (marble s i)) + kMarbleSpeed ∧
  (∀ k, currentState s = GAME → KeyHit k Key_0 = false →
     posZ (model (marble (Update k s) i)) = posZ (model (marble s i)) + kMarbleSpeed ∧
     posZ (model (marble s i)) < posZ (model (marble (Update k s) i))) ∧
  (30 < posZ (model (marble s i)) + kMarbleSpeed →
     moveMarble i s = removeMarble i (onMarble i (onModel (MoveZ kMarbleSpeed)) s) ∧
     active (marble (moveMarble i s) i) = false ∧
     visible (model (marble (moveMarble i s) i)) = false ∧
     blockStates (moveMarble i s) = blockStates s ∧
     blocks (moveMarble i s) = blocks s) ∧
  (posZ (model (marble s i)) + kMarbleSpeed <= 30 →
     moveMarble i s = checkBlocks i (onMarble i (onModel (MoveZ kMarbleSpeed)) s) ∧
     ((∀ row j, (row < kNumRows)%nat → (j < kNumBlocksPerRow)%nat →
         collides (onMarble i (onModel (MoveZ kMarbleSpeed)) s) i row j = false) →
      active (marble (moveMarble i s) i) = true)).
Proof.
  intros Hi Ha. pose proof (active_in_range s i Ha) as Hlen.
  split; [|split; [|split]].
  - apply posZ_moveMarbles; assumption.
  - intros k Hp Hk.
    assert (Heq : posZ (model (marble (Update k s) i))
                  = posZ (model (marble s i)) + kMarbleSpeed).
    { destruct (UpdateGame_checked k s Hp) as (t & -> & _ & ->). rewrite Hk.
      unfold marble at 1. rewrite marbles_checkWin.
      fold (marble (moveMarbles (if KeyHit k Key_Space then ShootMarble s else s)) i).
      destruct (KeyHit k Key_Space).
      - rewrite posZ_moveMarbles, marble_ShootMarble_active;
          [reflexivity | exact Ha | exact Hi |].
        rewrite marble_ShootMarble_active; exact Ha.
      - apply posZ_moveMarbles; assumption. }
    split; [exact Heq|]. rewrite Heq. unfold kMarbleSpeed. lra.
  - intros Hz. rewrite (moveMarble_out i s Ha Hz), removeMarble_eq.
    rewrite marble_onMarble_same by (simpl; rewrite length_alter; exact Hlen).
    repeat split.
  - intros Hz. rewrite (moveMarble_in i s Ha Hz). split; [reflexivity|].
    intros Hmiss. rewrite checkBlocks_miss by exact Hmiss.
    rewrite marble_onMarble_same by exact Hlen. exact Ha.
Qed.

Lemma reachable_mainLoop ks s : reachable s → reachable (mainLoop ks s).
Proof.
  revert s. induction ks as [|k ks IH]; intros s Hr; simpl; [exact Hr|].
  destruct (engineRunning s) eqn:Hrun; [|exact Hr].
  apply IH, reach_frame; assumption.
Qed.

Lemma marble_advance_witness :
  posZ (model (marble (moveMarbles midFlight) 0))
  = posZ (model (marble midFlight 0)) + kMarbleSpeed.
Proof.
  refine (proj1 (marble_advance midFlight 0 _ _)).
  - unfold kMaxMarbles. lia.
  - vm_compute. reflexivity.
Defined.

(** C4 as it is written fails in a frame that restarts: the marble in
    flight at z = 5 is at z = 0 after the frame. *)
Lemma marble_advance_counterexample :
  currentState midFlight = GAME ∧
  active (marble midFlight 0) = true ∧
  posZ (model (marble midFlight 0)) == 5 ∧
  posZ (model (marble (Update zeroKey midFlight) 0)) = 0 ∧
  ¬ posZ (model (marble midFlight 0)) < posZ (model (marble (Update zeroKey midFlight) 0)).
Proof.
  split; [|split; [|split; [|split]]]; try (vm_compute; reflexivity).
  vm_compute. intros H. discriminate H.
Qed.

(** ** One marble, two blocks *)

(** C1 at the first impact of a game.  One frame before, marble 0 is the
    only marble in flight and every block is NORMAL.  In the next frame
    its collision scan advances block (0, 2), which deactivates and hides
    the marble, and goes on to advance block (0, 3): the scan has no
    [break], so the same marble damages two blocks in one frame. *)
Theorem one_marble_two_blocks :
  reachable beforeImpact ∧
  currentState beforeImpact = GAME ∧
  active <$> marbles beforeImpact = [true; false; false] ∧
  blockStates beforeImpact = replicate kNumRows (replicate kNumBlocksPerRow NORMAL) ∧
  blockStates (moveMarble 0 beforeImpact)
    = [[NORMAL; NORMAL; HIT_ONCE; HIT_ONCE; NORMAL];
       [NORMAL; NORMAL; NORMAL; NORMAL; NORMAL]] ∧
  blockStates (Update noKey beforeImpact)
    = [[NORMAL; NORMAL; HIT_ONCE; HIT_ONCE; NORMAL];
       [NORMAL; NORMAL; NORMAL; NORMAL; NORMAL]] ∧
  active (marble (hitBlock 0 0 2
            (onMarble 0 (onModel (MoveZ kMarbleSpeed)) beforeImpact)) 0) = false ∧
  visible (model (marble (hitBlock 0 0 2
            (onMarble 0 (onModel (MoveZ kMarbleSpeed)) beforeImpact)) 0)) = false.
Proof.
  split; [apply reachable_mainLoop, reach_setup|].
  vm_compute. repeat split.
Qed.

Lemma block_damage_monotone_witness :
  visible (block (mainLoop twoShots SetupScene) 0 2) = false.
Proof.
  refine (proj1 (proj2 (proj2 (block_damage_monotone (mainLoop twoShots SetupScene))))
                _ 0%nat 2%nat _).
  - apply reachable_mainLoop, reach_setup.
  - vm_compute. reflexivity.
Defined.

(** ** The update reads nothing but the game state *)

Lemma fmap_eq_Forall2 {A B : Type} (g : A → B) (l k : list A) :
  g <$> l = g <$> k ↔ Forall2 (λ x y, g x = g y) l k.
Proof.
  split.
  - revert k. induction l as [|x l IH]; intros [|y k] H; try discriminate H.
    + constructor.
    + injection H as Hxy Hlk. constructor; [exact Hxy | apply IH, Hlk].
  - induction 1 as [|x y l k Hxy _ IH]; [reflexivity|].
    cbn [fmap list_fmap] in *. rewrite Hxy, IH. reflexivity.
Qed.

Lemma alike_view s t : view s = view t ↔ alike s t.
Proof.
  unfold view, alike. split.
  - intros [= Hp Hm Hs Hb]. repeat split; [exact Hp | | exact Hs |].
    + apply fmap_eq_Forall2, Hm.
    + apply fmap_eq_Forall2 in Hb.
      eapply Forall2_impl; [exact Hb|]. intros x y Hxy.
      apply fmap_eq_Forall2, Hxy.
  - intros (Hp & Hm & Hs & Hb). f_equal; [f_equal; [f_equal|]|]; try assumption.
    + apply fmap_eq_Forall2, Hm.
    + apply fmap_eq_Forall2.
      eapply Forall2_impl; [exact Hb|]. intros x y Hxy.
      apply fmap_eq_Forall2, Hxy.
Qed.

Lemma Forall2_lookup_total_eq {A B : Type} `{!Inhabited A} (g : A → B)
    (l k : list A) (i : nat) :
  Forall2 (λ x y, g x = g y) l k → g (l !!! i) = g (k !!! i).
Proof.
  intros H. destruct (l !! i) as [x|] eqn:Hx.
  - destruct (Forall2_lookup_l _ _ _ _ _ H Hx) as (y & Hy & Hxy).
    rewrite (list_lookup_total_correct _ _ _ Hx), (list_lookup_total_correct _ _ _ Hy).
    exact Hxy.
  - assert (Hy : k !! i = None).
    { apply lookup_ge_None. rewrite <- (Forall2_length _ _ _ H).
      apply lookup_ge_None. exact Hx. }
    rewrite !list_lookup_total_alt, Hx, Hy. reflexivity.
Qed.

Lemma Forall2_lookup2_total_eq {A B : Type} `{!Inhabited A} (g : A → B)
    (l k : list (list A)) (r c : nat) :
  Forall2 (Forall2 (λ x y, g x = g y)) l k → g ((l !!! r) !!! c) = g ((k !!! r) !!! c).
Proof.
  intros H. destruct (l !! r) as [x|] eqn:Hx.
  - destruct (Forall2_lookup_l _ _ _ _ _ H Hx) as (y & Hy & Hxy).
    rewrite (list_lookup_total_correct _ _ _ Hx), (list_lookup_total_correct _ _ _ Hy).
    apply Forall2_lookup_total_eq, Hxy.
  - assert (Hy : k !! r = None).
    { apply lookup_ge_None. rewrite <- (Forall2_length _ _ _ H).
      apply lookup_ge_None. exact Hx. }
    rewrite !(list_lookup_total_alt _ r), Hx, Hy. reflexivity.
Qed.

Lemma alike_refl s : alike s s.
Proof. apply alike_view. reflexivity. Qed.

Lemma alike_marble s t i : alike s t → marbleView (marble s i) = marbleView (marble t i).
Proof. intros (_ & Hm & _). apply (Forall2_lookup_total_eq marbleView), Hm. Qed.

Lemma alike_block s t r c : alike s t → blockView (block s r c) = blockView (block t r c).
Proof. intros (_ & _ & _ & Hb). apply (Forall2_lookup2_total_eq blockView), Hb. Qed.

Lemma alike_blockState s t r c : alike s t → blockState s r c = blockState t r c.
Proof. intros (_ & _ & Hs & _). unfold blockState. rewrite Hs. reflexivity. Qed.

Ltac view_write :=
  let m := fresh "m" in let m' := fresh "m" in let H := fresh "H" in
  intros m m' H;
  try (destruct m as [[? ? ? ? ?] ?], m' as [[? ? ? ? ?] ?]);
  try (destruct m as [? ? ? ? ?], m' as [? ? ? ? ?]);
  unfold marbleView, blockView, place in *; simpl in *;
  injection H as ?; subst; reflexivity.

Lemma onView_active b : onView (setActive b).
Proof. view_write. Qed.
Lemma onView_visible b : onView (onModel (SetVisible b)).
Proof. view_write. Qed.
Lemma onView_position x y z : onView (onModel (SetPosition x y z)).
Proof. view_write. Qed.
Lemma onView_move d : onView (onModel (MoveZ d)).
Proof. view_write. Qed.
Lemma onBlockView_visible b : onBlockView (SetVisible b).
Proof. view_write. Qed.
Lemma onBlockView_skin f : onBlockView (SetSkin f).
Proof. view_write. Qed.
Lemma onBlockView_position x y z : onBlockView (SetPosition x y z).
Proof. view_write. Qed.
Lemma onBlockView_dent st : onBlockView (dent st).
Proof. destruct st; view_write. Qed.

Lemma alike_onMarble i f s t :
  onView f → alike s t → alike (onMarble i f s) (onMarble i f t).
Proof.
  intros Hf (Hp & Hm & Hs & Hb). repeat split; try assumption. simpl.
  apply Forall2_alter; [exact Hm|]. intros m m' _ _. apply Hf.
Qed.

Lemma alike_onBlock r c f s t :
  onBlockView f → alike s t → alike (onBlock r c f s) (onBlock r c f t).
Proof.
  intros Hf (Hp & Hm & Hs & Hb). repeat split; try assumption. simpl.
  apply Forall2_alter; [exact Hb|]. intros x y _ _ Hxy.
  apply Forall2_alter; [exact Hxy|]. intros b b' _ _. apply Hf.
Qed.

Lemma alike_setBlockState r c v s t :
  alike s t → alike (setBlockState r c v s) (setBlockState r c v t).
Proof.
  intros (Hp & Hm & Hs & Hb). repeat split; try assumption. simpl.
  rewrite Hs. reflexivity.
Qed.

Lemma alike_removeMarble i s t : alike s t → alike (removeMarble i s) (removeMarble i t).
Proof.
  intros H. unfold removeMarble.
  apply alike_onMarble; [apply onView_visible|].
  apply alike_onMarble; [apply onView_active | exact H].
Qed.

Lemma alike_CheckCollision s t i r c :
  alike s t →
  CheckCollision (model (marble s i)) (block s r c) 1
  = CheckCollision (model (marble t i)) (block t r c) 1.
Proof.
  intros H. apply CheckCollision_place.
  - pose proof (alike_marble s t i H) as Hm. unfold marbleView in Hm. congruence.
  - pose proof (alike_block s t r c H) as Hb. unfold blockView in Hb. congruence.
Qed.

Lemma alike_hitBlock i r c s t :
  alike s t → alike (hitBlock i r c s) (hitBlock i r c t).
Proof.
  intros H. rewrite !hitBlock_eq. unfold collides.
  rewrite <- (alike_blockState s t r c H), <- (alike_CheckCollision s t i r c H).
  destruct (_ && _); [|exact H].
  apply alike_onBlock; [apply onBlockView_dent|].
  apply alike_setBlockState, alike_removeMarble, H.
Qed.

Lemma alike_checkBlocks i s t : alike s t → alike (checkBlocks i s) (checkBlocks i t).
Proof.
  intros H. unfold checkBlocks. apply for_each_rel; [exact H|].
  intros row a b _ Hab. apply for_each_rel; [exact Hab|].
  intros j u v _. apply alike_hitBlock.
Qed.

Lemma alike_moveMarble i s t : alike s t → alike (moveMarble i s) (moveMarble i t).
Proof.
  intros H. unfold moveMarble.
  pose proof (alike_marble s t i H) as Hm.
  assert (Ha : active (marble s i) = active (marble t i))
    by (unfold marbleView in Hm; congruence).
  rewrite <- Ha. destruct (active (marble s i)); [|exact H].
  assert (Hmoved : alike (onMarble i (onModel (MoveZ kMarbleSpeed)) s)
                         (onMarble i (onModel (MoveZ kMarbleSpeed)) t))
    by (apply alike_onMarble; [apply onView_move | exact H]).
  pose proof (alike_marble _ _ i Hmoved) as Hm'.
  assert (Hz : GetZ (model (marble (onMarble i (onModel (MoveZ kMarbleSpeed)) s) i))
               = GetZ (model (marble (onMarble i (onModel (MoveZ kMarbleSpeed)) t) i)))
    by (unfold marbleView, place, GetZ in *; congruence).
  rewrite <- Hz. destruct (Qlt_bool _ _).
  - apply alike_removeMarble, Hmoved.
  - apply alike_checkBlocks, Hmoved.
Qed.

Lemma alike_moveMarbles s t : alike s t → alike (moveMarbles s) (moveMarbles t).
Proof.
  intros H. unfold moveMarbles. apply for_each_rel; [exact H|].
  intros i a b _. apply alike_moveMarble.
Qed.

Lemma alike_ShootMarble s t : alike s t → alike (ShootMarble s) (ShootMarble t).
Proof.
  intros H. unfold ShootMarble. generalize (seq 0 kMaxMarbles). intros ixs.
  induction ixs as [|i ixs IH]; simpl; [exact H|].
  pose proof (alike_marble s t i H) as Hm.
  assert (Ha : active (marble s i) = active (marble t i))
    by (unfold marbleView in Hm; congruence).
  rewrite <- Ha. destruct (active (marble s i)); simpl; [exact IH|].
  apply alike_onMarble; [apply onView_active|].
  apply alike_onMarble; [apply onView_visible|].
  apply alike_onMarble; [apply onView_position | exact H].
Qed.

Lemma alike_RestartGame s t : alike s t → alike (RestartGame s) (RestartGame t).
Proof.
  intros H. unfold RestartGame.
  assert (Hset : ∀ a b, alike a b →
            alike (setCurrentState GAME (setGameOverText false a))
                  (setCurrentState GAME (setGameOverText false b))).
  { intros a b (_ & Hm & Hs & Hb). repeat split; assumption. }
  apply Hset.
  apply for_each_rel.
  - apply for_each_rel; [exact H|]. intros i a b _ Hab.
    apply alike_onMarble; [apply onView_position|].
    apply alike_onMarble; [apply onView_visible|].
    apply alike_onMarble; [apply onView_active | exact Hab].
  - intros row a b _ Hab. apply for_each_rel; [exact Hab|]. intros j u v _ Huv.
    apply alike_setBlockState.
    apply alike_onBlock; [apply onBlockView_visible|].
    apply alike_onBlock; [apply onBlockView_skin|].
    apply alike_onBlock; [apply onBlockView_position | exact Huv].
Qed.

Lemma alike_allDead s t : alike s t → allDead s = allDead t.
Proof.
  intros (_ & _ & Hs & _). unfold allDead. simpl. unfold blockState.
  rewrite Hs. reflexivity.
Qed.

Lemma alike_checkWin s t : alike s t → alike (checkWin s) (checkWin t).
Proof.
  intros H. unfold checkWin. rewrite <- (alike_allDead s t H).
  destruct (allDead s); [|exact H].
  destruct H as (_ & Hm & Hs & Hb). repeat split; assumption.
Qed.

Lemma alike_Update k s t : alike s t → alike (Update k s) (Update k t).
Proof.
  intros H. unfold Update. rewrite <- (proj1 H).
  destruct (currentState s).
  - destruct (KeyHit k Key_Space); [|exact H].
    destruct H as (_ & Hm & Hs & Hb). repeat split; assumption.
  - unfold UpdateGame. apply alike_checkWin.
    assert (H1 : alike (if KeyHit k Key_Space then ShootMarble s else s)
                       (if KeyHit k Key_Space then ShootMarble t else t))
      by (destruct (KeyHit k Key_Space); [apply alike_ShootMarble|]; exact H).
    apply alike_moveMarbles in H1.
    destruct (KeyHit k Key_0); [apply alike_RestartGame|]; exact H1.
  - assert (H1 : alike (if KeyHit k Key_0 then RestartGame s else s)
                       (if KeyHit k Key_0 then RestartGame t else t))
      by (destruct (KeyHit k Key_0); [apply alike_RestartGame|]; exact H).
    destruct (KeyHit k Key_Escape); [|exact H1].
    destruct H1 as (Hp & Hm & Hs & Hb). repeat split; assumption.
Qed.

(** C10.  The frame update is a function of the game state and of the
    keys of the frame.  Two runs that start from states with the same view
    (phase, marble positions and flags, block states, positions and
    visibility), in particular from the same state, and receive the same
    keys frame by frame, go through states with the same views. *)
Theorem Update_deterministic (ks : list Keys) (s t : World) :
  view s = view t → view <$> frames ks s = view <$> frames ks t.
Proof.
  rewrite alike_view. revert s t.
  induction ks as [|k ks IH]; intros s t H; simpl; [reflexivity|].
  apply (alike_Update k) in H. f_equal.
  - apply alike_view, H.
  - apply IH, H.
Qed.

Lemma Update_deterministic_witness :
  view <$> frames oneShot SetupScene
  = view <$> frames oneShot (Stop (setGameOverText true SetupScene)).
Proof.
  apply (Update_deterministic oneShot SetupScene (Stop (setGameOverText true SetupScene))).
  reflexivity.
Defined.

(** * Further properties of the code *)

(** ** Phase, game-over text and engine *)

Lemma status_for_each (n : nat) (body : nat → World → World) (s : World) :
  (∀ i t, status (body i t) = status t) → status (for_each n body s) = status s.
Proof.
  intros Hb. apply (for_each_inv (λ t, status t = status s)); [reflexivity|].
  intros i t _ Ht. rewrite Hb. exact Ht.
Qed.

Lemma status_hitBlock i row j s : status (hitBlock i row j s) = status s.
Proof. rewrite hitBlock_eq. destruct (collides s i row j); reflexivity. Qed.

Lemma status_moveMarble i s : status (moveMarble i s) = status s.
Proof.
  unfold moveMarble. destruct (active (marble s i)); [|reflexivity].
  destruct (Qlt_bool _ _); [reflexivity|].
  unfold checkBlocks. rewrite status_for_each; [reflexivity|].
  intros row t. apply status_for_each. intros j u. apply status_hitBlock.
Qed.

Lemma status_moveMarbles s : status (moveMarbles s) = status s.
Proof.
  unfold moveMarbles. apply status_for_each. intros i t. apply status_moveMarble.
Qed.

Lemma status_ShootMarble s : status (ShootMarble s) = status s.
Proof.
  unfold ShootMarble. generalize (seq 0 kMaxMarbles). intros ixs.
  induction ixs as [|i ixs IH]; cbn [ShootMarble_from]; [reflexivity|].
  destruct (negb (active (marble s i))); [reflexivity | exact IH].
Qed.

Lemma status_RestartGame s : status (RestartGame s) = (false, GAME, engineRunning s).
Proof.
  unfold RestartGame.
  match goal with
  | |- status (setCurrentState GAME (setGameOverText false ?u)) = _ =>
      assert (Hu : status u = status s)
  end.
  { rewrite status_for_each.
    - apply status_for_each. intros i t. reflexivity.
    - intros row t. apply status_for_each. intros j u. reflexivity. }
  unfold status in *. cbn [gameOverText currentState engineRunning
    setCurrentState setGameOverText]. congruence.
Qed.

(** The state a GAME frame hands to the win check, and its status. *)
Lemma UpdateGame_status k s :
  currentState s = GAME →
  ∃ t, Update k s = checkWin t ∧
       status t = (if KeyHit k Key_0 then (false, GAME, engineRunning s) else status s).
Proof.
  intros Hp. unfold Update. rewrite Hp. unfold UpdateGame.
  eexists. split; [reflexivity|].
  destruct (KeyHit k Key_0).
  - rewrite status_RestartGame. f_equal.
    assert (Hrun : ∀ t, engineRunning t = snd (status t)) by reflexivity.
    rewrite Hrun, status_moveMarbles.
    destruct (KeyHit k Key_Space); rewrite ?status_ShootMarble; reflexivity.
  - rewrite status_moveMarbles.
    destruct (KeyHit k Key_Space); rewrite ?status_ShootMarble; reflexivity.
Qed.

Lemma status_checkWin t :
  status (checkWin t) = if allDead t then (true, OVER, engineRunning t) else status t.
Proof. unfold checkWin. destruct (allDead t); reflexivity. Qed.

Lemma status_Stop u : status (Stop u) = (gameOverText u, currentState u, false).
Proof. reflexivity. Qed.

Lemma status_Update_MENU k s :
  currentState s = MENU →
  status (Update k s)
  = (gameOverText s, if KeyHit k Key_Space then GAME else MENU, engineRunning s).
Proof.
  intros Hp. unfold Update. rewrite Hp. unfold status.
  destruct (KeyHit k Key_Space); [reflexivity | rewrite Hp; reflexivity].
Qed.

Lemma status_Update_OVER k s :
  currentState s = OVER →
  status (Update k s)
  = (if KeyHit k Key_0 then false else gameOverText s,
     if KeyHit k Key_0 then GAME else OVER,
     if KeyHit k Key_Escape then false else engineRunning s).
Proof.
  intros Hp. unfold Update. rewrite Hp.
  destruct (KeyHit k Key_Escape), (KeyHit k Key_0);
    rewrite ?status_Stop, ?status_RestartGame.
  - reflexivity.
  - rewrite Hp. reflexivity.
  - reflexivity.
  - unfold status. rewrite Hp. reflexivity.
Qed.

Lemma status_Update_GAME k s :
  currentState s = GAME →
  status (Update k s) = (true, OVER, engineRunning s) ∨
  status (Update k s)
  = (if KeyHit k Key_0 then false else gameOverText s, GAME, engineRunning s).
Proof.
  intros Hp. destruct (UpdateGame_status k s Hp) as (t & -> & Ht).
  rewrite status_checkWin.
  assert (Hrun : engineRunning t = engineRunning s).
  { change (snd (status t) = engineRunning s). rewrite Ht.
    destruct (KeyHit k Key_0); reflexivity. }
  destruct (allDead t); [left; rewrite Hrun; reflexivity|].
  right. rewrite Ht. destruct (KeyHit k Key_0); [reflexivity|].
  unfold status. rewrite Hp. reflexivity.
Qed.

(** X1.  The phase machine.  A frame takes MENU to GAME on the start key and
    leaves it otherwise; it takes GAME to GAME or OVER; it takes OVER to
    GAME on the restart key and leaves it otherwise.  No frame enters MENU. *)
Theorem phase_transitions (k : Keys) (s : World) :
  (currentState s = MENU →
     currentState (Update k s) = if KeyHit k Key_Space then GAME else MENU) ∧
  (currentState s = GAME →
     currentState (Update k s) = GAME ∨ currentState (Update k s) = OVER) ∧
  (currentState s = OVER →
     currentState (Update k s) = if KeyHit k Key_0 then GAME else OVER) ∧
  (currentState (Update k s) = MENU → currentState s = MENU).
Proof.
  assert (Hc : ∀ u st, status u = st → currentState u = snd (fst st))
    by (intros u st <-; reflexivity).
  assert (Hmenu : currentState s = MENU →
            currentState (Update k s) = if KeyHit k Key_Space then GAME else MENU).
  { intros Hp. apply (Hc _ _ (status_Update_MENU k s Hp)). }
  assert (Hgame : currentState s = GAME →
            currentState (Update k s) = GAME ∨ currentState (Update k s) = OVER).
  { intros Hp. destruct (status_Update_GAME k s Hp) as [H|H];
      [right | left]; apply (Hc _ _ H). }
  assert (Hover : currentState s = OVER →
            currentState (Update k s) = if KeyHit k Key_0 then GAME else OVER).
  { intros Hp. apply (Hc _ _ (status_Update_OVER k s Hp)). }
  split; [exact Hmenu | split; [exact Hgame | split; [exact Hover|]]].
  intros Hm. destruct (currentState s) eqn:Hp; [reflexivity | |].
  - destruct (Hgame eq_refl) as [H|H]; congruence.
  - rewrite (Hover eq_refl) in Hm. destruct (KeyHit k Key_0); discriminate.
Qed.

Lemma phase_transitions_witness :
  currentState (Update spaceKey SetupScene) = GAME ∧
  currentState (Update zeroKey (setCurrentState OVER allBlocksDead)) = GAME.
Proof.
  split.
  - exact (proj1 (phase_transitions spaceKey SetupScene) eq_refl).
  - exact (proj1 (proj2 (proj2 (phase_transitions zeroKey
                                   (setCurrentState OVER allBlocksDead)))) eq_refl).
Defined.

(** X2.  The game-over text follows the phase.  If the text is shown exactly in
    the phase OVER before a frame, it is so after the frame: the win check
    shows it when it enters OVER, restart hides it when it leaves OVER, and
    nothing else touches it. *)
Theorem game_over_text_follows_phase (k : Keys) (s : World) :
  TextShown s → TextShown (Update k s).
Proof.
  assert (Hst : ∀ u st, status u = st →
            (fst (fst st) = true ↔ snd (fst st) = OVER) → TextShown u)
    by (intros u st <- H; exact H).
  intros H. unfold TextShown in H. destruct (currentState s) eqn:Hp.
  - apply (Hst _ _ (status_Update_MENU k s Hp)). cbn [fst snd].
    split; [intros Ht; apply H in Ht; discriminate|].
    destruct (KeyHit k Key_Space); discriminate.
  - destruct (status_Update_GAME k s Hp) as [Hs|Hs]; apply (Hst _ _ Hs); cbn [fst snd].
    + split; reflexivity.
    + split; [|discriminate]. destruct (KeyHit k Key_0); [discriminate|].
      intros Ht. apply H in Ht. discriminate.
  - apply (Hst _ _ (status_Update_OVER k s Hp)). cbn [fst snd].
    destruct (KeyHit k Key_0); [split; discriminate|].
    split; [reflexivity|]. intros _. apply H. reflexivity.
Qed.

Lemma game_over_text_follows_phase_witness :
  TextShown (Update noKey allBlocksDead) ∧
  TextShown (Update zeroKey (setCurrentState OVER (setGameOverText true allBlocksDead))).
Proof.
  split.
  - refine (game_over_text_follows_phase noKey allBlocksDead _).
    split; discriminate.
  - refine (game_over_text_follows_phase zeroKey
              (setCurrentState OVER (setGameOverText true allBlocksDead)) _).
    split; reflexivity.
Defined.

(** X3.  The engine stops on the quit key in the phase OVER and on nothing
    else: in MENU and in GAME a frame leaves the running flag as it is,
    whatever keys are hit, and no frame sets it again once it is cleared. *)
Theorem engine_stops_only_on_quit (k : Keys) (s : World) :
  engineRunning (Update k s)
  = match currentState s with
    | OVER => if KeyHit k Key_Escape then false else engineRunning s
    | MENU | GAME => engineRunning s
    end.
Proof.
  assert (Hr : ∀ u st, status u = st → engineRunning u = snd st)
    by (intros u st <-; reflexivity).
  destruct (currentState s) eqn:Hp.
  - apply (Hr _ _ (status_Update_MENU k s Hp)).
  - destruct (status_Update_GAME k s Hp) as [H|H]; apply (Hr _ _ H).
  - apply (Hr _ _ (status_Update_OVER k s Hp)).
Qed.

(** ** The scene of a reachable state *)

Lemma onLane_launch m : onLane (launch m).
Proof.
  repeat split. exists 0%Z. repeat split; try lia; reflexivity.
Qed.

Lemma onLane_remove m :
  onLane m → onLane ((onModel (SetVisible false) ∘ setActive false) m).
Proof.
  intros (Hx & Hy & k & Hk & Hz & _). repeat split; try assumption.
  exists k. repeat split; try lia; try assumption; try discriminate.
Qed.

Lemma onLane_reset m :
  onLane (onModel (SetPosition 0 0 0) (onModel (SetVisible false) (setActive false m))).
Proof.
  repeat split. exists 0%Z. repeat split; try lia; try reflexivity; try discriminate.
Qed.

Lemma onLane_step m k :
  (0 ≤ k)%Z → posZ (model m) == inject_Z k / 2 →
  posZ (model (onModel (MoveZ kMarbleSpeed) m)) == inject_Z (k + 1) / 2.
Proof.
  intros Hk Hz. cbn [onModel model MoveZ posZ]. rewrite Hz, inject_Z_plus.
  unfold kMarbleSpeed. change (inject_Z 1) with 1. field.
Qed.

Lemma onLane_move_in m :
  onLane m → active m = true →
  Qlt_bool 30 (GetZ (MoveZ kMarbleSpeed (model m))) = false →
  onLane (onModel (MoveZ kMarbleSpeed) m).
Proof.
  intros (Hx & Hy & k & Hk & Hz & Ha) Hact Hin. specialize (Ha Hact).
  apply Qlt_bool_false_iff in Hin.
  pose proof (onLane_step m k ltac:(lia) Hz) as Hz'.
  change (GetZ (MoveZ kMarbleSpeed (model m)))
    with (posZ (model (onModel (MoveZ kMarbleSpeed) m))) in Hin.
  rewrite Hz' in Hin.
  assert (Hle : (k + 1 ≤ 60)%Z).
  { rewrite Zle_Qle.
    assert (E : inject_Z (k + 1) == inject_Z (k + 1) / 2 * 2) by field.
    rewrite E. change (inject_Z 60) with 60. lra. }
  repeat split; try assumption.
  exists (k + 1)%Z. repeat split; try lia. exact Hz'.
Qed.

Lemma onLane_move_out m :
  onLane m → active m = true →
  onLane ((onModel (SetVisible false) ∘ setActive false) (onModel (MoveZ kMarbleSpeed) m)).
Proof.
  intros (Hx & Hy & k & Hk & Hz & Ha) Hact. specialize (Ha Hact).
  pose proof (onLane_step m k ltac:(lia) Hz) as Hz'.
  repeat split; try assumption.
  exists (k + 1)%Z. repeat split; try lia; try exact Hz'; try discriminate.
Qed.

Lemma Lane_marble s i : Lane s → (i < length (marbles s))%nat → onLane (marble s i).
Proof.
  intros Hs Hi. apply lookup_lt_is_Some_2 in Hi as [m Hm]. unfold marble.
  rewrite (list_lookup_total_correct _ _ _ Hm).
  exact (Forall_lookup_1 _ _ _ _ Hs Hm).
Qed.

Lemma Lane_posX s i : Lane s → posX (model (marble s i)) = 0.
Proof.
  intros Hs. destruct (decide (i < length (marbles s))%nat) as [Hi|Hi].
  - apply (Lane_marble s i Hs Hi).
  - unfold marble. rewrite list_lookup_total_alt, lookup_ge_None_2 by lia. reflexivity.
Qed.

Lemma Lane_onMarble i f s :
  (∀ m, marbles s !! i = Some m → onLane m → onLane (f m)) →
  Lane s → Lane (onMarble i f s).
Proof. intros Hf Hs. unfold Lane. cbn [marbles onMarble]. apply Forall_alter; assumption. Qed.

Lemma Lane_hitBlock i row j s : Lane s → Lane (hitBlock i row j s).
Proof.
  intros Hs. rewrite hitBlock_eq. destruct (collides s i row j); [|exact Hs].
  rewrite removeMarble_eq.
  apply (Lane_onMarble i _ s); [|exact Hs]. intros m _. apply onLane_remove.
Qed.

Lemma Lane_checkBlocks i s : Lane s → Lane (checkBlocks i s).
Proof.
  intros Hs. unfold checkBlocks. apply for_each_inv; [exact Hs|].
  intros row t _ Ht. apply for_each_inv; [exact Ht|].
  intros j u _. apply Lane_hitBlock.
Qed.

Lemma Lane_moveMarble i s : Lane s → Lane (moveMarble i s).
Proof.
  intros Hs. unfold moveMarble. destruct (active (marble s i)) eqn:Ha; [|exact Hs].
  pose proof (active_in_range s i Ha) as Hi.
  rewrite (marble_onMarble_same i _ s Hi). cbn [onModel model].
  assert (Hm : ∀ m, marbles s !! i = Some m → m = marble s i).
  { intros m Hm. unfold marble. rewrite (list_lookup_total_correct _ _ _ Hm). reflexivity. }
  destruct (Qlt_bool _ _) eqn:Hz.
  - rewrite removeMarble_eq, onMarble_onMarble.
    apply Lane_onMarble; [|exact Hs]. intros m Hlook Hlane.
    rewrite (Hm m Hlook) in *. apply onLane_move_out; assumption.
  - apply Lane_checkBlocks. apply Lane_onMarble; [|exact Hs]. intros m Hlook Hlane.
    rewrite (Hm m Hlook) in *. apply onLane_move_in; assumption.
Qed.

Lemma Lane_ShootMarble s : Lane s → Lane (ShootMarble s).
Proof.
  intros Hs. unfold ShootMarble. generalize (seq 0 kMaxMarbles). intros ixs.
  induction ixs as [|i ixs IH]; cbn [ShootMarble_from]; [exact Hs|].
  destruct (negb (active (marble s i))); [|exact IH].
  rewrite !onMarble_onMarble. apply Lane_onMarble; [|exact Hs].
  intros m _ _. apply onLane_launch.
Qed.

Lemma Lane_RestartGame s : Lane s → Lane (RestartGame s).
Proof.
  intros Hs. unfold RestartGame.
  match goal with
  | |- Lane (setCurrentState GAME (setGameOverText false ?u)) => change (Lane u)
  end.
  apply for_each_inv.
  - apply for_each_inv; [exact Hs|]. intros i t _ Ht. cbv beta zeta.
    rewrite !onMarble_onMarble. apply Lane_onMarble; [|exact Ht].
    intros m _ _. apply onLane_reset.
  - intros row t _ Ht. apply for_each_inv; [exact Ht|]. intros j u _ Hu. exact Hu.
Qed.

Lemma Grid_same s t :
  (∀ r c, place (block t r c) = place (block s r c)) → Grid s → Grid t.
Proof. intros He H r c Hr Hc. rewrite He. apply H; assumption. Qed.

Lemma Grid_moveMarble i s : Grid s → Grid (moveMarble i s).
Proof. apply Grid_same. apply (proj2 (moveMarble_keeps i s)). Qed.

Lemma Grid_ShootMarble s : Grid s → Grid (ShootMarble s).
Proof.
  apply Grid_same. intros r c. unfold block. rewrite blocks_ShootMarble. reflexivity.
Qed.

Lemma Grid_RestartGame s : shaped s → Grid (RestartGame s).
Proof.
  intros Hs r c Hr Hc. rewrite (RestartGame_result s Hs).
  unfold block, kNumRows, kNumBlocksPerRow in *. cbn [blocks].
  destruct r as [|[|r]]; [| |lia];
    (destruct c as [|[|[|[|[|c]]]]]; [| | | | |lia]); reflexivity.
Qed.

(** A marble on the lane is too far from the columns 0, 1 and 4. *)
Lemma miss_side_column m b r c :
  posX m = 0 → (c < kNumBlocksPerRow)%nat → c ≠ 2%nat → c ≠ 3%nat →
  place b = (gridX c, 0, gridZ r) → CheckCollision m b 1 = false.
Proof.
  intros Hx Hc H2 H3 [= Hbx _ _]. unfold CheckCollision, GetX, GetZ.
  apply Qlt_bool_false_iff. rewrite Hx, Hbx.
  set (dz := posZ m - posZ b).
  assert (Hdz : 0 <= dz * dz) by nra.
  unfold kNumBlocksPerRow in Hc.
  generalize dependent (dz * dz). intros q Hq.
  destruct c as [|[|[|[|[|c]]]]]; try lia; try congruence;
    unfold gridX, kBlockWidth; cbv [Z.of_nat Pos.of_succ_nat Pos.succ inject_Z]; lra.
Qed.

Lemma Untouched_hitBlock i row j s :
  Lane s → Grid s → (row < kNumRows)%nat → (j < kNumBlocksPerRow)%nat →
  Untouched s → Untouched (hitBlock i row j s).
Proof.
  intros Hl Hg Hrow Hj Hu r c Hr Hc H2 H3.
  destruct (decide ((row, j) = (r, c))) as [[= -> ->]|Hne].
  - rewrite hitBlock_eq. unfold collides.
    rewrite (miss_side_column _ _ r c (Lane_posX s i Hl) Hc H2 H3 (Hg r c Hr Hc)).
    rewrite andb_false_r. apply Hu; assumption.
  - rewrite blockState_hitBlock_other by exact Hne. apply Hu; assumption.
Qed.

Lemma Scene_checkBlocks i s :
  Lane s → Grid s → Untouched s → Untouched (checkBlocks i s).
Proof.
  intros Hl Hg Hu. unfold checkBlocks.
  set (P := λ t : World, Lane t ∧ Grid t ∧ Untouched t).
  assert (HP : P (for_each kNumRows
                    (λ row, for_each kNumBlocksPerRow (λ j, hitBlock i row j)) s)).
  { apply (for_each_inv P); [repeat split; assumption|].
    intros row t Hrow Ht. apply (for_each_inv P); [exact Ht|].
    intros j u Hj (Hl' & Hg' & Hu'). repeat split.
    - apply Lane_hitBlock, Hl'.
    - apply (Grid_same u); [intros r c; apply place_block_hitBlock | exact Hg'].
    - apply Untouched_hitBlock; assumption. }
  apply HP.
Qed.

Lemma Untouched_same s t : blockStates t = blockStates s → Untouched s → Untouched t.
Proof.
  intros He H r c Hr Hc H2 H3. unfold blockState. rewrite He. apply H; assumption.
Qed.

Lemma Untouched_moveMarble i s :
  Lane s → Grid s → Untouched s → Untouched (moveMarble i s).
Proof.
  intros Hl Hg Hu. pose proof (Lane_moveMarble i s Hl) as Hl'. revert Hl'.
  unfold moveMarble. destruct (active (marble s i)) eqn:Ha; [|intros _; exact Hu].
  pose proof (active_in_range s i Ha) as Hi.
  rewrite (marble_onMarble_same i _ s Hi). cbn [onModel model].
  destruct (Qlt_bool _ _) eqn:Hz; intros Hl'.
  - apply (Untouched_same s); [reflexivity | exact Hu].
  - apply Scene_checkBlocks.
    + apply Lane_onMarble; [|exact Hl]. intros m Hm Hlane.
      assert (Hmi : m = marble s i)
        by (unfold marble; rewrite (list_lookup_total_correct _ _ _ Hm); reflexivity).
      rewrite Hmi in *. apply onLane_move_in; assumption.
    + apply (Grid_same s); [reflexivity | exact Hg].
    + apply (Untouched_same s); [reflexivity | exact Hu].
Qed.

Lemma shaped_same s t : shape t = shape s → shaped s → shaped t.
Proof. intros He H. apply shaped_shape. rewrite He. apply shaped_shape, H. Qed.

Lemma Scene_moveMarble i s : Scene s → Scene (moveMarble i s).
Proof.
  intros (Hs & Hl & Hg & Hu). repeat split.
  - apply (shaped_same s); [apply shape_moveMarble | exact Hs].
  - apply (shaped_same s); [apply shape_moveMarble | exact Hs].
  - apply (shaped_same s); [apply shape_moveMarble | exact Hs].
  - apply Lane_moveMarble, Hl.
  - apply Grid_moveMarble, Hg.
  - apply Untouched_moveMarble; assumption.
Qed.

Lemma Scene_moveMarbles s : Scene s → Scene (moveMarbles s).
Proof.
  intros H. unfold moveMarbles. apply for_each_inv; [exact H|].
  intros i t _. apply Scene_moveMarble.
Qed.

Lemma Scene_ShootMarble s : Scene s → Scene (ShootMarble s).
Proof.
  intros (Hs & Hl & Hg & Hu). repeat split.
  - apply (shaped_same s); [apply shape_ShootMarble | exact Hs].
  - apply (shaped_same s); [apply shape_ShootMarble | exact Hs].
  - apply (shaped_same s); [apply shape_ShootMarble | exact Hs].
  - apply Lane_ShootMarble, Hl.
  - apply Grid_ShootMarble, Hg.
  - apply (Untouched_same s); [apply blockStates_ShootMarble | exact Hu].
Qed.

Lemma Scene_RestartGame s : Scene s → Scene (RestartGame s).
Proof.
  intros (Hs & Hl & Hg & Hu). repeat split.
  - apply (shaped_same s); [apply shape_RestartGame | exact Hs].
  - apply (shaped_same s); [apply shape_RestartGame | exact Hs].
  - apply (shaped_same s); [apply shape_RestartGame | exact Hs].
  - apply Lane_RestartGame, Hl.
  - apply Grid_RestartGame, Hs.
  - intros r c Hr Hc _ _. apply blockState_RestartGame; assumption.
Qed.

Lemma Untouched_not_allDead t : Untouched t → allDead t = false.
Proof.
  intros Hu. apply not_true_iff_false. intros Hall%allDead_iff.
  assert (H0 : blockState t 0 0 = NORMAL)
    by (apply Hu; unfold kNumRows, kNumBlocksPerRow; lia).
  rewrite (Hall 0%nat 0%nat) in H0; [discriminate | |];
    unfold kNumRows, kNumBlocksPerRow; lia.
Qed.

Lemma Scene_setCurrentState p s : Scene s → Scene (setCurrentState p s).
Proof. intros H. exact H. Qed.

Lemma status_checked k s :
  status (if KeyHit k Key_0
          then RestartGame (moveMarbles (if KeyHit k Key_Space then ShootMarble s else s))
          else moveMarbles (if KeyHit k Key_Space then ShootMarble s else s))
  = if KeyHit k Key_0 then (false, GAME, engineRunning s) else status s.
Proof.
  assert (Hrun : ∀ t, engineRunning t = snd (status t)) by reflexivity.
  destruct (KeyHit k Key_0).
  - rewrite status_RestartGame, Hrun, status_moveMarbles.
    destruct (KeyHit k Key_Space); rewrite ?status_ShootMarble; reflexivity.
  - rewrite status_moveMarbles.
    destruct (KeyHit k Key_Space); rewrite ?status_ShootMarble; reflexivity.
Qed.

(** A frame that starts in MENU or GAME with the scene in order ends with
    the scene in order, and the win check does not fire. *)
Lemma Scene_Update k s :
  Scene s → currentState s ≠ OVER →
  Scene (Update k s) ∧
  status (Update k s)
  = (match currentState s with
     | GAME => if KeyHit k Key_0 then false else gameOverText s
     | _ => gameOverText s
     end,
     match currentState s with
     | MENU => if KeyHit k Key_Space then GAME else MENU
     | _ => GAME
     end,
     engineRunning s).
Proof.
  intros Hs Hp. destruct (currentState s) eqn:Hphase; [| |congruence].
  - split; [|apply (status_Update_MENU k s Hphase)].
    unfold Update. rewrite Hphase. destruct (KeyHit k Key_Space); exact Hs.
  - destruct (UpdateGame_checked k s Hphase) as (t & HU & _ & Ht).
    assert (Hscene : Scene t).
    { subst t.
      assert (H1 : Scene (if KeyHit k Key_Space then ShootMarble s else s))
        by (destruct (KeyHit k Key_Space); [apply Scene_ShootMarble|]; exact Hs).
      apply Scene_moveMarbles in H1.
      destruct (KeyHit k Key_0); [apply Scene_RestartGame|]; exact H1. }
    assert (Hcw : checkWin t = t).
    { unfold checkWin. rewrite Untouched_not_allDead; [reflexivity | apply Hscene]. }
    rewrite HU, Hcw. split; [exact Hscene|].
    rewrite Ht, status_checked.
    destruct (KeyHit k Key_0); [reflexivity|].
    unfold status. rewrite Hphase. reflexivity.
Qed.

Lemma Scene_SetupScene : Scene SetupScene.
Proof.
  split; [repeat split|split; [|split]].
  - unfold Lane, SetupScene, kMaxMarbles. cbn [marbles seq map].
    repeat constructor; exists 0%Z; repeat split; try lia; try reflexivity; discriminate.
  - intros r c Hr Hc. unfold kNumRows, kNumBlocksPerRow in *.
    destruct r as [|[|r]]; [| |lia];
      (destruct c as [|[|[|[|[|c]]]]]; [| | | | |lia]); reflexivity.
  - intros r c Hr Hc _ _. unfold kNumRows, kNumBlocksPerRow in *.
    destruct r as [|[|r]]; [| |lia];
      (destruct c as [|[|[|[|[|c]]]]]; [| | | | |lia]); reflexivity.
Qed.

Lemma reachable_Scene s :
  reachable s →
  Scene s ∧ currentState s ≠ OVER ∧ gameOverText s = false ∧ engineRunning s = true.
Proof.
  induction 1 as [|k s _ (Hs & Hp & Ht & Hr) _].
  - split; [apply Scene_SetupScene|]. repeat split. discriminate.
  - destruct (Scene_Update k s Hs Hp) as (Hs' & Hst).
    split; [exact Hs'|].
    assert (Hc : currentState (Update k s) = snd (fst (status (Update k s)))) by reflexivity.
    assert (Hg : gameOverText (Update k s) = fst (fst (status (Update k s)))) by reflexivity.
    assert (He : engineRunning (Update k s) = snd (status (Update k s))) by reflexivity.
    rewrite Hc, Hg, He, Hst. cbn [fst snd]. repeat split.
    + destruct (currentState s); [destruct (KeyHit k Key_Space)| |]; discriminate.
    + destruct (currentState s); [exact Ht | destruct (KeyHit k Key_0); [reflexivity | exact Ht] | exact Ht].
    + exact Hr.
Qed.

(** X5.  The game cannot be won.  No state [main] reaches is in the phase OVER:
    the marbles fly along x = 0 and the blocks of the columns 0, 1 and 4
    stand 3 or 5 units to the side, out of collision range, so the win
    check never finds all blocks DEAD.  Hence the game-over text is never
    shown, and the quit key, which is read only in OVER, never stops the
    engine: the loop of [main] runs every frame it is given. *)
Theorem game_never_over (s : World) :
  reachable s →
  currentState s ≠ OVER ∧ gameOverText s = false ∧ engineRunning s = true ∧
  (∀ ks, reachable (mainLoop ks s) ∧
         mainLoop ks s = foldl (λ t k, Update k t) s ks).
Proof.
  intros Hr. destruct (reachable_Scene s Hr) as (_ & Hp & Ht & Hrun).
  repeat split; try assumption.
  - apply reachable_mainLoop, Hr.
  - revert s Hr Hp Ht Hrun. induction ks as [|k ks IH]; intros s Hr _ _ Hrun;
      cbn [mainLoop foldl]; [reflexivity|].
    rewrite Hrun.
    assert (Hr' : reachable (Update k s)) by (apply reach_frame; assumption).
    destruct (reachable_Scene _ Hr') as (_ & Hp' & Ht' & Hrun').
    apply IH; assumption.
Qed.

Lemma game_never_over_witness :
  currentState (mainLoop twoShots SetupScene) ≠ OVER.
Proof.
  exact (proj1 (game_never_over (mainLoop twoShots SetupScene)
                  (reachable_mainLoop twoShots SetupScene reach_setup))).
Defined.

(** X6.  Marbles stay on the lane.  In every reachable state each marble of the
    pool is at x = 0 and y = 0 and at a z that is a multiple of 1/2
    between 0 and 30.5; a marble in flight is at most at z = 30. *)
Theorem marbles_stay_on_lane (s : World) (i : nat) :
  reachable s → (i < kMaxMarbles)%nat →
  posX (model (marble s i)) = 0 ∧
  posY (model (marble s i)) = 0 ∧
  ∃ k : Z, (0 ≤ k ≤ 61)%Z ∧ posZ (model (marble s i)) == inject_Z k / 2 ∧
           (active (marble s i) = true → (k ≤ 60)%Z).
Proof.
  intros Hr Hi. destruct (reachable_Scene s Hr) as (((Hlen & _) & Hl & _) & _).
  apply (Lane_marble s i Hl). rewrite Hlen. exact Hi.
Qed.

Lemma marbles_stay_on_lane_witness :
  posX (model (marble midFlight 0)) = 0.
Proof.
  refine (proj1 (marbles_stay_on_lane midFlight 0 _ _)).
  - apply reachable_mainLoop, reach_setup.
  - unfold kMaxMarbles. lia.
Defined.

(** X7.  Blocks never move.  In every reachable state each block of the grid
    stands where [SetupScene] created it, at x = i * kBlockWidth - 5,
    y = 0 and z = row * 5 + 10. *)
Theorem blocks_never_move (s : World) (row i : nat) :
  reachable s → (row < kNumRows)%nat → (i < kNumBlocksPerRow)%nat →
  place (block s row i) = (gridX i, 0, gridZ row) ∧
  place (block s row i) = place (block SetupScene row i).
Proof.
  intros Hr Hrow Hi. destruct (reachable_Scene s Hr) as ((_ & _ & Hg & _) & _).
  destruct Scene_SetupScene as (_ & _ & Hg0 & _).
  rewrite (Hg row i Hrow Hi), (Hg0 row i Hrow Hi). split; reflexivity.
Qed.

Lemma blocks_never_move_witness :
  place (block (mainLoop twoShots SetupScene) 0 2) = place (block SetupScene 0 2).
Proof.
  refine (proj2 (blocks_never_move (mainLoop twoShots SetupScene) 0 2 _ _ _)).
  - apply reachable_mainLoop, reach_setup.
  - unfold kNumRows. lia.
  - unfold kNumBlocksPerRow. lia.
Defined.

(** X8.  Only the two middle columns can be hit.  In every reachable state the
    blocks of the columns 0, 1 and 4 are NORMAL: no marble ever damages
    them. *)
Theorem side_columns_never_damaged (s : World) (row i : nat) :
  reachable s → (row < kNumRows)%nat → (i < kNumBlocksPerRow)%nat →
  i ≠ 2%nat → i ≠ 3%nat → blockState s row i = NORMAL.
Proof.
  intros Hr Hrow Hi H2 H3. destruct (reachable_Scene s Hr) as ((_ & _ & _ & Hu) & _).
  apply Hu; assumption.
Qed.

Lemma side_columns_never_damaged_witness :
  blockState (mainLoop twoShots SetupScene) 0 4 = NORMAL.
Proof.
  refine (side_columns_never_damaged (mainLoop twoShots SetupScene) 0 4 _ _ _ _ _).
  - apply reachable_mainLoop, reach_setup.
  - unfold kNumRows. lia.
  - unfold kNumBlocksPerRow. lia.
  - discriminate.
  - discriminate.
Defined.

(** ** The collision test and the relative position *)

Lemma onRaster_MoveZ (m : IModel) (a b e : Z) :
  onRaster m a b → (-64 ≤ b + e ≤ 64)%Z → onRaster (MoveZ (inject_Z e / 2) m) a (b + e).
Proof.
  intros (Ha & _ & Hx & Hz) Hb. repeat split; try lia; cbn [MoveZ posX posZ].
  - exact Hx.
  - rewrite Hz, inject_Z_plus. field.
Qed.

(** X9.  On the raster of the game, with the radius of 1 the game uses,
    the collision test sees only the relative position of the two models
    on the ground plane: it gives the same answer with the models
    exchanged, and the same answer after both have moved by the same
    number of half units along z and are still on the raster.  This holds
    of the rational model and of the source's computation in binary32. *)
Theorem CheckCollision_relative (m1 m2 : IModel) (a b c d e : Z) :
  onRaster m1 a b → onRaster m2 c d →
  (-64 ≤ b + e ≤ 64)%Z → (-64 ≤ d + e ≤ 64)%Z →
  (CheckCollision m1 m2 1 = CheckCollision m2 m1 1 ∧
   CheckCollision32 (halves32 a) (halves32 b) (halves32 c) (halves32 d) (halves32 2)
   = CheckCollision32 (halves32 c) (halves32 d) (halves32 a) (halves32 b) (halves32 2)) ∧
  (CheckCollision (MoveZ (inject_Z e / 2) m1) (MoveZ (inject_Z e / 2) m2) 1
   = CheckCollision m1 m2 1 ∧
   CheckCollision32 (halves32 a) (halves32 (b + e)) (halves32 c) (halves32 (d + e)) (halves32 2)
   = CheckCollision32 (halves32 a) (halves32 b) (halves32 c) (halves32 d) (halves32 2)).
Proof.
  intros H1 H2 Hb Hd.
  pose proof (onRaster_MoveZ m1 a b e H1 Hb) as H1'.
  pose proof (onRaster_MoveZ m2 c d e H2 Hd) as H2'.
  rewrite (CheckCollision_raster _ _ _ _ _ _ H1 H2), (CheckCollision_raster _ _ _ _ _ _ H2 H1),
    (CheckCollision_raster _ _ _ _ _ _ H1' H2').
  destruct H1 as (Ha & Hb0 & _), H2 as (Hc & Hd0 & _).
  rewrite !CheckCollision32_raster by assumption.
  repeat split; f_equal; ring.
Qed.

(** A marble at z = 8.5 against the block at (-1, 10), and both five units
    further on. *)
Lemma CheckCollision_relative_witness :
  CheckCollision32 (halves32 0) (halves32 27) (halves32 (-2)) (halves32 30) (halves32 2)
  = CheckCollision32 (halves32 0) (halves32 17) (halves32 (-2)) (halves32 20) (halves32 2).
Proof.
  refine (proj2 (proj2 (CheckCollision_relative (CreateModel 0 0 (17 # 2)) (CreateModel (-1) 0 10)
                          0 17 (-2) 20 10 _ _ _ _)));
    try (repeat split; (lia || reflexivity)).
Defined.

(** ** Restart and a fresh game *)





(** ** Every shot ends *)

Lemma reachable_MENU s : reachable s → currentState s = MENU → s = SetupScene.
Proof.
  induction 1 as [|k s Hr IH _]; intros Hp; [reflexivity|].
  destruct (reachable_Scene s Hr) as (_ & Hover & _).
  destruct (currentState s) eqn:Hphase; [| |congruence].
  - pose proof (status_Update_MENU k s Hphase) as Hst.
    assert (Hc : currentState (Update k s) = snd (fst (status (Update k s)))) by reflexivity.
    rewrite Hc, Hst in Hp. cbn [fst snd] in Hp.
    unfold Update. rewrite Hphase.
    destruct (KeyHit k Key_Space); [discriminate | apply IH; reflexivity].
  - exfalso. destruct (status_Update_GAME k s Hphase) as [Hst|Hst];
      assert (Hc : currentState (Update k s) = snd (fst (status (Update k s))))
        by reflexivity; rewrite Hc, Hst in Hp; discriminate.
Qed.

Lemma active_RestartGame s i : shaped s → active (marble (RestartGame s) i) = false.
Proof.
  intros Hs. rewrite (RestartGame_result s Hs). unfold marble. cbn [marbles].
  destruct Hs as (Hlen & _). destruct (marbles3 s Hlen) as (m0 & m1 & m2 & ->).
  destruct i as [|[|[|i]]]; reflexivity.
Qed.

(** One frame of a marble in flight: after the frame it is out of play, or
    it is in flight half a unit further. *)
Lemma frame_of_flight s i key :
  reachable s → (i < kMaxMarbles)%nat → active (marble s i) = true →
  active (marble (Update key s) i) = false ∨
  posZ (model (marble (Update key s) i)) = posZ (model (marble s i)) + kMarbleSpeed.
Proof.
  intros Hr Hi Ha.
  destruct (reachable_Scene s Hr) as ((Hsh & _) & Hover & _).
  destruct (currentState s) eqn:Hphase; [| |congruence].
  - rewrite (reachable_MENU s Hr Hphase) in Ha. exfalso. revert Ha.
    unfold kMaxMarbles in Hi. destruct i as [|[|[|i]]]; try lia; discriminate.
  - destruct (UpdateGame_checked key s Hphase) as (t & -> & _ & ->).
    unfold marble at 1 2. rewrite marbles_checkWin.
    set (s1 := if KeyHit key Key_Space then ShootMarble s else s).
    assert (H1 : marble s1 i = marble s i)
      by (unfold s1; destruct (KeyHit key Key_Space);
          [apply marble_ShootMarble_active, Ha | reflexivity]).
    destruct (KeyHit key Key_0).
    + left. apply active_RestartGame. apply (shaped_same s); [|exact Hsh].
      rewrite shape_moveMarbles. unfold s1.
      destruct (KeyHit key Key_Space); rewrite ?shape_ShootMarble; reflexivity.
    + right. fold (marble (moveMarbles s1) i).
      rewrite posZ_moveMarbles, H1; [reflexivity | exact Hi | rewrite H1; exact Ha].
Qed.

Lemma halves_injective (a b : Z) : inject_Z a / 2 == inject_Z b / 2 → a = b.
Proof.
  intros H. apply inject_Z_injective.
  assert (Ea : inject_Z a == inject_Z a / 2 * 2) by field.
  assert (Eb : inject_Z b == inject_Z b / 2 * 2) by field.
  rewrite Ea, Eb, H. reflexivity.
Qed.

Lemma reachable_onLane s i :
  reachable s → (i < kMaxMarbles)%nat → onLane (marble s i).
Proof.
  intros Hr Hi. destruct (reachable_Scene s Hr) as (((Hlen & _) & Hl & _) & _).
  apply (Lane_marble s i Hl). rewrite Hlen. exact Hi.
Qed.

Lemma flight_ends_within (n : nat) :
  ∀ s i, reachable s → (i < kMaxMarbles)%nat →
    (∀ k, posZ (model (marble s i)) == inject_Z k / 2 → (61 - k ≤ Z.of_nat n)%Z) →
    ∀ ks, (n ≤ length ks)%nat →
      ∃ m, (m ≤ n)%nat ∧ active (marble (mainLoop (take m ks) s) i) = false.
Proof.
  induction n as [|n IH]; intros s i Hr Hi Hk ks Hlen;
    destruct (reachable_onLane s i Hr Hi) as (_ & _ & k & Hk0 & Hz & Hact);
    pose proof (Hk k Hz) as Hkn.
  - exists 0%nat. split; [lia|]. rewrite take_0. cbn [mainLoop].
    destruct (active (marble s i)); [specialize (Hact eq_refl); lia | reflexivity].
  - destruct (active (marble s i)) eqn:Ha.
    2:{ exists 0%nat. split; [lia|]. rewrite take_0. cbn [mainLoop]. exact Ha. }
    destruct ks as [|key ks]; [cbn [length] in Hlen; lia|].
    destruct (reachable_Scene s Hr) as (_ & _ & _ & Hrun).
    assert (Hr' : reachable (Update key s)) by (apply reach_frame; assumption).
    destruct (frame_of_flight s i key Hr Hi Ha) as [Hoff|Hstep].
    + exists 1%nat. split; [lia|]. rewrite firstn_cons, take_0. cbn [mainLoop].
      rewrite Hrun. exact Hoff.
    + destruct (IH (Update key s) i Hr' Hi) with (ks := ks) as (m & Hm & Hoff).
      * intros k' Hz'. rewrite Hstep, Hz in Hz'.
        assert (Hk' : k' = (k + 1)%Z).
        { apply halves_injective. rewrite <- Hz', inject_Z_plus.
          unfold kMarbleSpeed. change (inject_Z 1) with 1. field. }
        lia.
      * cbn [length] in Hlen. lia.
      * exists (S m). split; [lia|]. rewrite firstn_cons. cbn [mainLoop].
        rewrite Hrun. exact Hoff.
Qed.

(** X11.  Every shot ends.  From any reachable state, whatever the keys of the
    following frames are, each marble of the pool is out of play at the
    latest 61 frames later: it has hit a block, passed z = 30 or been
    cleared by restart.  No slot of the pool is taken for ever. *)
Theorem marble_flight_ends (s : World) (i : nat) (ks : list Keys) :
  reachable s → (i < kMaxMarbles)%nat → (61 ≤ length ks)%nat →
  ∃ m, (m ≤ 61)%nat ∧ active (marble (mainLoop (take m ks) s) i) = false.
Proof.
  intros Hr Hi Hlen. apply (flight_ends_within 61 s i Hr Hi); [|exact Hlen].
  intros k Hz. destruct (reachable_onLane s i Hr Hi) as (_ & _ & k0 & Hk0 & Hz0 & _).
  rewrite Hz0 in Hz. apply halves_injective in Hz. lia.
Qed.

Lemma marble_flight_ends_witness :
  ∃ m, (m ≤ 61)%nat ∧
       active (marble (mainLoop (take m (replicate 61 noKey)) midFlight) 0) = false.
Proof.
  refine (marble_flight_ends midFlight 0 (replicate 61 noKey) _ _ _).
  - apply reachable_mainLoop, reach_setup.
  - unfold kMaxMarbles. lia.
  - vm_compute. lia.
Defined.

(** ** The two middle blocks of a row *)

Lemma shaped_rows s row :
  shaped s → (row < kNumRows)%nat →
  length (blockStates s) = kNumRows ∧ length (blockStates s !!! row) = kNumBlocksPerRow.
Proof.
  intros (_ & _ & Hs) Hrow. unfold kNumRows, kNumBlocksPerRow in *.
  destruct (blockStates s) as [|q0 [|q1 [|q2 l]]]; try discriminate Hs.
  injection Hs as H0 H1. split; [reflexivity|].
  destruct row as [|[|row]]; [exact H0 | exact H1 | lia].
Qed.

Lemma blockState_hitBlock_precise i row j s :
  shaped s → (row < kNumRows)%nat → (j < kNumBlocksPerRow)%nat →
  blockState (hitBlock i row j s) row j
  = if collides s i row j then damaged (blockState s row j) else blockState s row j.
Proof.
  intros Hs Hrow Hj. destruct (shaped_rows s row Hs Hrow) as (Hlen & Hlen').
  rewrite hitBlock_eq. destruct (collides s i row j); [|reflexivity].
  rewrite blockState_written. case_decide as H; [reflexivity|].
  exfalso. apply H. unfold removeMarble. cbn [blockStates onMarble].
  rewrite Hlen, Hlen'. auto.
Qed.

Lemma twin_collision m b2 b3 r :
  posX m = 0 → place b2 = (gridX 2, 0, gridZ r) → place b3 = (gridX 3, 0, gridZ r) →
  CheckCollision m b2 1 = CheckCollision m b3 1.
Proof.
  intros Hx [= H2x _ H2z] [= H3x _ H3z]. unfold CheckCollision, GetX, GetZ.
  apply Qlt_bool_compat; [|reflexivity]. rewrite Hx, H2x, H2z, H3x, H3z.
  unfold gridX, kBlockWidth. cbv [Z.of_nat Pos.of_succ_nat Pos.succ inject_Z]. ring.
Qed.

Lemma Scene_hitBlock i row j s :
  (row < kNumRows)%nat → (j < kNumBlocksPerRow)%nat → Scene s → Scene (hitBlock i row j s).
Proof.
  intros Hrow Hj (Hs & Hl & Hg & Hu). split; [|split; [|split]].
  - apply (shaped_same s); [apply shape_hitBlock | exact Hs].
  - apply Lane_hitBlock, Hl.
  - apply (Grid_same s); [intros r c; apply place_block_hitBlock | exact Hg].
  - apply Untouched_hitBlock; assumption.
Qed.

Lemma collides_twin i row u v :
  Scene u → (row < kNumRows)%nat →
  (∀ i', place (model (marble v i')) = place (model (marble u i'))) →
  (∀ r c, place (block v r c) = place (block u r c)) →
  blockState v row 3 = blockState u row 2 →
  collides v i row 3 = collides u i row 2.
Proof.
  intros (_ & Hl & Hg & _) Hrow Hm Hb Hst. unfold collides. rewrite Hst. f_equal.
  rewrite (CheckCollision_place _ (model (marble u i)) _ (block u row 3) 1 (Hm i) (Hb row 3%nat)).
  symmetry. apply (twin_collision _ _ _ row (Lane_posX u i Hl)); apply Hg;
    unfold kNumBlocksPerRow; (assumption || lia).
Qed.

Ltac cells_differ :=
  let H := fresh in intros H; inversion H; subst; (lia || congruence).

Lemma Twin_row i row t :
  Scene t → (row < kNumRows)%nat → Twin t →
  Twin (for_each kNumBlocksPerRow (λ j, hitBlock i row j) t).
Proof.
  intros Ht Hrow Htw r Hr.
  unfold for_each, kNumBlocksPerRow. cbn [seq foldl].
  set (u1 := hitBlock i row 1 (hitBlock i row 0 t)).
  assert (Hu1 : Scene u1)
    by (apply Scene_hitBlock; [exact Hrow | unfold kNumBlocksPerRow; lia|];
        apply Scene_hitBlock; [exact Hrow | unfold kNumBlocksPerRow; lia | exact Ht]).
  assert (H1 : ∀ c, c = 2%nat ∨ c = 3%nat → blockState u1 r c = blockState t r c).
  { intros c Hc. unfold u1. rewrite !blockState_hitBlock_other; [reflexivity| |];
      cells_differ. }
  set (u2 := hitBlock i row 2 u1).
  set (u3 := hitBlock i row 3 u2).
  rewrite !(blockState_hitBlock_other i row 4) by cells_differ.
  destruct (decide (r = row)) as [->|Hne].
  - assert (Hu2 : Scene u2)
      by (apply Scene_hitBlock; [exact Hrow | unfold kNumBlocksPerRow; lia | exact Hu1]).
    assert (H32 : blockState u3 row 2 = blockState u2 row 2)
      by (apply blockState_hitBlock_other; cells_differ).
    assert (H23 : blockState u2 row 3 = blockState u1 row 3)
      by (apply blockState_hitBlock_other; cells_differ).
    rewrite H32. unfold u3.
    rewrite (blockState_hitBlock_precise i row 3 u2 (proj1 Hu2) Hrow)
      by (unfold kNumBlocksPerRow; lia).
    unfold u2 at 1.
    rewrite (blockState_hitBlock_precise i row 2 u1 (proj1 Hu1) Hrow)
      by (unfold kNumBlocksPerRow; lia).
    assert (Hst : blockState u2 row 3 = blockState u1 row 2)
      by (rewrite H23, !H1 by auto; symmetry; apply Htw, Hrow).
    rewrite (collides_twin i row u1 u2 Hu1 Hrow); [rewrite Hst; reflexivity | | | exact Hst].
    + intros i'. apply place_marble_hitBlock.
    + intros r c. apply place_block_hitBlock.
  - assert (H3 : ∀ c, blockState u3 r c = blockState u1 r c).
    { intros c. unfold u3, u2. rewrite !blockState_hitBlock_other; [reflexivity| |];
        cells_differ. }
    rewrite !H3, !H1 by auto. apply Htw, Hr.
Qed.

Lemma Scene_row i row t :
  (row < kNumRows)%nat → Scene t →
  Scene (for_each kNumBlocksPerRow (λ j, hitBlock i row j) t).
Proof.
  intros Hrow Ht. apply for_each_inv; [exact Ht|].
  intros j u Hj. apply Scene_hitBlock; assumption.
Qed.

Lemma Twin_checkBlocks i s : Scene s → Twin s → Twin (checkBlocks i s).
Proof.
  intros Hs Ht. unfold checkBlocks.
  set (P := λ t : World, Scene t ∧ Twin t).
  assert (HP : P (for_each kNumRows
                    (λ row, for_each kNumBlocksPerRow (λ j, hitBlock i row j)) s)).
  { apply (for_each_inv P); [split; assumption|].
    intros row t Hrow (Hsc & Htw). split.
    - apply Scene_row; assumption.
    - apply Twin_row; assumption. }
  apply HP.
Qed.

Lemma Twin_same s t : blockStates t = blockStates s → Twin s → Twin t.
Proof. intros He H r Hr. unfold blockState. rewrite He. apply H, Hr. Qed.

Lemma Scene_moved i s :
  Scene s → active (marble s i) = true →
  Qlt_bool 30 (GetZ (MoveZ kMarbleSpeed (model (marble s i)))) = false →
  Scene (onMarble i (onModel (MoveZ kMarbleSpeed)) s).
Proof.
  intros (Hs & Hl & Hg & Hu) Ha Hz. split; [|split; [|split]].
  - apply (shaped_same s); [apply shape_onMarble | exact Hs].
  - apply Lane_onMarble; [|exact Hl]. intros m Hm Hlane.
    assert (Hmi : m = marble s i)
      by (unfold marble; rewrite (list_lookup_total_correct _ _ _ Hm); reflexivity).
    rewrite Hmi in *. apply onLane_move_in; assumption.
  - apply (Grid_same s); [reflexivity | exact Hg].
  - apply (Untouched_same s); [reflexivity | exact Hu].
Qed.

Lemma Twin_moveMarble i s : Scene s → Twin s → Twin (moveMarble i s).
Proof.
  intros Hs Ht. unfold moveMarble. destruct (active (marble s i)) eqn:Ha; [|exact Ht].
  pose proof (active_in_range s i Ha) as Hi.
  rewrite (marble_onMarble_same i _ s Hi). cbn [onModel model].
  destruct (Qlt_bool _ _) eqn:Hz.
  - apply (Twin_same s); [reflexivity | exact Ht].
  - apply Twin_checkBlocks; [apply Scene_moved; assumption|].
    apply (Twin_same s); [reflexivity | exact Ht].
Qed.

Lemma reachable_Twin s : reachable s → Twin s.
Proof.
  induction 1 as [|k s Hr IH _].
  { intros r Hr. unfold kNumRows in Hr. destruct r as [|[|r]]; [| |lia]; reflexivity. }
  destruct (reachable_Scene s Hr) as (Hs & Hover & _).
  destruct (currentState s) eqn:Hphase; [| |congruence].
  - unfold Update. rewrite Hphase. destruct (KeyHit k Key_Space); exact IH.
  - destruct (UpdateGame_checked k s Hphase) as (t & -> & _ & ->).
    apply (Twin_same _ _ (blockStates_checkWin _)).
    set (s1 := if KeyHit k Key_Space then ShootMarble s else s).
    assert (H1 : Scene s1 ∧ Twin s1).
    { unfold s1. destruct (KeyHit k Key_Space); [|split; assumption].
      split; [apply Scene_ShootMarble, Hs|].
      apply (Twin_same s); [apply blockStates_ShootMarble | exact IH]. }
    assert (H2 : Scene (moveMarbles s1) ∧ Twin (moveMarbles s1)).
    { unfold moveMarbles. apply (for_each_inv (λ t, Scene t ∧ Twin t)); [exact H1|].
      intros i t _ (Hsc & Htw). split;
        [apply Scene_moveMarble, Hsc | apply Twin_moveMarble; assumption]. }
    destruct (KeyHit k Key_0); [|apply H2].
    intros r Hr'. rewrite !blockState_RestartGame;
      [reflexivity | apply H2 | exact Hr' | unfold kNumBlocksPerRow; lia
       | apply H2 | exact Hr' | unfold kNumBlocksPerRow; lia].
Qed.

(** X12.  The two middle blocks of a row are damaged together.  A marble on the
    lane is equally far from the blocks of the columns 2 and 3, and the
    scan of the grid goes on after a hit, so whenever one of them is hit
    so is the other: in every reachable state the two have the same
    state. *)
Theorem middle_blocks_share_state (s : World) (row : nat) :
  reachable s → (row < kNumRows)%nat → blockState s row 2 = blockState s row 3.
Proof. intros Hr Hrow. apply (reachable_Twin s Hr), Hrow. Qed.

Lemma middle_blocks_share_state_witness :
  blockState (mainLoop oneShot SetupScene) 0 2 = blockState (mainLoop oneShot SetupScene) 0 3.
Proof.
  refine (middle_blocks_share_state (mainLoop oneShot SetupScene) 0 _ _).
  - apply reachable_mainLoop, reach_setup.
  - unfold kNumRows. lia.
Defined.

(** ** Marbles in flight *)

Lemma ShootMarble_cases s :
  ShootMarble s = s ∨
  ∃ i, active (marble s i) = false ∧ ShootMarble s = onMarble i launch s.
Proof.
  unfold ShootMarble. generalize (seq 0 kMaxMarbles). intros ixs.
  induction ixs as [|i ixs IH]; cbn [ShootMarble_from]; [left; reflexivity|].
  destruct (active (marble s i)) eqn:Ha; cbn [negb]; [exact IH|].
  right. exists i. split; [exact Ha|]. rewrite !onMarble_onMarble. reflexivity.
Qed.

Lemma active_removeMarble i t : active (marble (removeMarble i t) i) = false.
Proof.
  rewrite removeMarble_eq. unfold marble. cbn [marbles onMarble].
  rewrite list_lookup_total_alter. case_decide as H; [reflexivity|].
  rewrite list_lookup_total_alt, lookup_ge_None_2; [reflexivity|].
  destruct (decide (i < length (marbles t))%nat); [exfalso; apply H; auto | lia].
Qed.

(** A marble that is in flight after a hit test did not collide. *)
Lemma survivor_hitBlock i row j t :
  active (marble (hitBlock i row j t) i) = true →
  collides t i row j = false ∧ hitBlock i row j t = t.
Proof.
  rewrite hitBlock_eq. destruct (collides t i row j); [|split; reflexivity].
  intros Ha. exfalso.
  assert (Hm : marble (onBlock row j (dent (blockState t row j))
                 (setBlockState row j (damaged (blockState t row j)) (removeMarble i t))) i
               = marble (removeMarble i t) i) by reflexivity.
  rewrite Hm, active_removeMarble in Ha. discriminate.
Qed.

Lemma active_hitAll i cells t :
  active (marble (hitAll i cells t) i) = true → active (marble t i) = true.
Proof.
  revert t. induction cells as [|[row j] cells IH]; intros t Ha; [exact Ha|].
  rewrite hitAll_cons in Ha. apply IH in Ha. cbn [fst snd] in Ha.
  destruct (survivor_hitBlock i row j t Ha) as (_ & He). rewrite He in Ha. exact Ha.
Qed.

Lemma survivor_hitAll i cells t :
  active (marble (hitAll i cells t) i) = true →
  hitAll i cells t = t ∧ ∀ r c, (r, c) ∈ cells → collides t i r c = false.
Proof.
  revert t. induction cells as [|[row j] cells IH]; intros t Ha.
  - split; [reflexivity|]. intros r c Hin. inversion Hin.
  - rewrite hitAll_cons in Ha. cbn [fst snd] in Ha.
    pose proof (active_hitAll i cells _ Ha) as Ha'.
    destruct (survivor_hitBlock i row j t Ha') as (Hc & He).
    rewrite He in Ha. destruct (IH t Ha) as (Hall & Hmiss).
    split; [rewrite hitAll_cons; cbn [fst snd]; rewrite He; exact Hall|].
    intros r c [[= -> ->]|Hin]%elem_of_cons; [exact Hc | apply Hmiss, Hin].
Qed.

Lemma elem_of_grid r c :
  (r < kNumRows)%nat → (c < kNumBlocksPerRow)%nat → (r, c) ∈ grid.
Proof.
  intros Hr Hc. unfold kNumRows, kNumBlocksPerRow in *.
  destruct r as [|[|r]]; [| |lia];
    (destruct c as [|[|[|[|[|c]]]]]; [| | | | |lia]);
    apply (bool_decide_unpack _); vm_compute; exact I.
Qed.

(** The scan of a marble that stays in flight finds DEAD every block it
    is in range of, and changes nothing. *)
Lemma survivor_moveMarble i u r c :
  (r < kNumRows)%nat → (c < kNumBlocksPerRow)%nat →
  active (marble (moveMarble i u) i) = true →
  active (marble u i) = true ∧
  Qlt_bool 30 (GetZ (MoveZ kMarbleSpeed (model (marble u i)))) = false ∧
  (CheckCollision (MoveZ kMarbleSpeed (model (marble u i))) (block u r c) 1 = true →
   blockState u r c = DEAD).
Proof.
  intros Hr Hc. unfold moveMarble.
  destruct (active (marble u i)) eqn:Ha; [|intros Hx; congruence].
  pose proof (active_in_range u i Ha) as Hi.
  rewrite (marble_onMarble_same i _ u Hi). cbn [onModel model].
  destruct (Qlt_bool _ _) eqn:Hz.
  - rewrite active_removeMarble. discriminate.
  - rewrite checkBlocks_hitAll. intros Hact.
    destruct (survivor_hitAll i grid _ Hact) as (_ & Hmiss).
    split; [reflexivity | split; [reflexivity|]]. intros Hcc.
    specialize (Hmiss r c (elem_of_grid r c Hr Hc)). unfold collides in Hmiss.
    rewrite (marble_onMarble_same i _ u Hi) in Hmiss. cbn [onModel model] in Hmiss.
    change (block (onMarble i (onModel (MoveZ kMarbleSpeed)) u) r c)
      with (block u r c) in Hmiss.
    change (blockState (onMarble i (onModel (MoveZ kMarbleSpeed)) u) r c)
      with (blockState u r c) in Hmiss.
    rewrite Hcc, andb_true_r in Hmiss.
    apply negb_false_iff, BlockState_eqb_eq in Hmiss. exact Hmiss.
Qed.

Lemma active_moveMarble_other i i' u :
  i ≠ i' → active (marble (moveMarble i' u) i) = active (marble u i).
Proof. intros Hne. rewrite (proj1 (moveMarble_keeps i' u) i Hne). reflexivity. Qed.

Lemma DEAD_moveMarble i u r c :
  blockState u r c = DEAD → blockState (moveMarble i u) r c = DEAD.
Proof.
  intros Hd. pose proof (rank_moveMarble i r c u) as H. rewrite Hd in H.
  destruct (blockState (moveMarble i u) r c); cbn [rank] in H; (reflexivity || lia).
Qed.

Lemma survivor_moveMarbles s i r c :
  (i < kMaxMarbles)%nat → (r < kNumRows)%nat → (c < kNumBlocksPerRow)%nat →
  active (marble (moveMarbles s) i) = true →
  active (marble s i) = true ∧
  (CheckCollision (MoveZ kMarbleSpeed (model (marble s i))) (block s r c) 1 = true →
   blockState (moveMarbles s) r c = DEAD).
Proof.
  intros Hi Hr Hc. rewrite moveMarbles_unroll. unfold kMaxMarbles in Hi.
  pose proof (λ j t, proj1 (moveMarble_keeps j t)) as Hother.
  pose proof (λ j t, proj2 (moveMarble_keeps j t)) as Hblock.
  destruct i as [|[|[|i]]]; [| | |lia]; intros Ha.
  - rewrite !active_moveMarble_other in Ha by lia.
    destruct (survivor_moveMarble 0 s r c Hr Hc Ha) as (Ha0 & _ & Hd).
    split; [exact Ha0|]. intros Hcc. apply DEAD_moveMarble, DEAD_moveMarble.
    pose proof (rank_moveMarble 0 r c s) as Hrk. rewrite (Hd Hcc) in Hrk.
    destruct (blockState (moveMarble 0 s) r c); cbn [rank] in Hrk; (reflexivity || lia).
  - rewrite (active_moveMarble_other 1 2) in Ha by lia.
    destruct (survivor_moveMarble 1 (moveMarble 0 s) r c Hr Hc Ha) as (Ha0 & _ & Hd).
    rewrite (Hother 0%nat s 1%nat) in Ha0, Hd by lia.
    split; [exact Ha0|]. intros Hcc. apply DEAD_moveMarble.
    rewrite (CheckCollision_place _ (MoveZ kMarbleSpeed (model (marble s 1)))
               _ (block (moveMarble 0 s) r c) 1 eq_refl (eq_sym (Hblock 0%nat s r c)))
      in Hcc.
    pose proof (rank_moveMarble 1 r c (moveMarble 0 s)) as Hrk. rewrite (Hd Hcc) in Hrk.
    destruct (blockState (moveMarble 1 (moveMarble 0 s)) r c); cbn [rank] in Hrk;
      (reflexivity || lia).
  - destruct (survivor_moveMarble 2 (moveMarble 1 (moveMarble 0 s)) r c Hr Hc Ha)
      as (Ha0 & _ & Hd).
    rewrite (Hother 1%nat _ 2%nat), (Hother 0%nat s 2%nat) in Ha0, Hd by lia.
    split; [exact Ha0|]. intros Hcc.
    assert (Hpl : place (block s r c) = place (block (moveMarble 1 (moveMarble 0 s)) r c))
      by (rewrite !Hblock; reflexivity).
    rewrite (CheckCollision_place _ (MoveZ kMarbleSpeed (model (marble s 2)))
               _ (block (moveMarble 1 (moveMarble 0 s)) r c) 1 eq_refl Hpl) in Hcc.
    pose proof (rank_moveMarble 2 r c (moveMarble 1 (moveMarble 0 s))) as Hrk.
    rewrite (Hd Hcc) in Hrk.
    destruct (blockState (moveMarble 2 (moveMarble 1 (moveMarble 0 s))) r c);
      cbn [rank] in Hrk; (reflexivity || lia).
Qed.

(** *** The collision zone of a middle block *)

Lemma gridZ_int row : gridZ row == inject_Z (5 * Z.of_nat row + 10).
Proof. unfold gridZ. rewrite inject_Z_plus, inject_Z_mult. ring. Qed.

Lemma middle_collision m b row c :
  posX m = 0 → c = 2%nat ∨ c = 3%nat → place b = (gridX c, 0, gridZ row) →
  (CheckCollision m b 1 = true ↔ (posZ m - gridZ row) * (posZ m - gridZ row) < 3).
Proof.
  intros Hx Hc [= Hbx _ Hbz]. unfold CheckCollision, GetX, GetZ.
  rewrite Qlt_bool_iff, Hx, Hbx, Hbz.
  generalize ((posZ m - gridZ row) * (posZ m - gridZ row)). intros q.
  destruct Hc as [-> | ->]; unfold gridX, kBlockWidth;
    cbv [Z.of_nat Pos.of_succ_nat Pos.succ inject_Z]; split; intros H; lra.
Qed.

(** A position on the half-unit raster that lies between 2.5 and 1.5 units
    before a row lies exactly two units before it. *)
Lemma raster_entry (z : Q) (k g : Z) :
  z == inject_Z k / 2 → inject_Z g - (5 # 2) < z → z < inject_Z g - (3 # 2) →
  z == inject_Z g - 2.
Proof.
  intros Hz Hlow Hlt.
  assert (E : inject_Z k == z * 2) by (rewrite Hz; field).
  clear Hz.
  assert (H1 : (k + 3 < 2 * g)%Z).
  { rewrite Zlt_Qlt, inject_Z_plus, inject_Z_mult, E.
    change (inject_Z 2) with 2. change (inject_Z 3) with 3. lra. }
  assert (H2 : (2 * g < k + 5)%Z).
  { rewrite Zlt_Qlt, inject_Z_plus, inject_Z_mult, E.
    change (inject_Z 2) with 2. change (inject_Z 5) with 5. lra. }
  assert (Hk : (k + 4)%Z = (2 * g)%Z) by lia.
  assert (E' : inject_Z k + 4 == 2 * inject_Z g).
  { change 4 with (inject_Z 4). change 2 with (inject_Z 2).
    rewrite <- inject_Z_plus, <- inject_Z_mult, Hk. reflexivity. }
  lra.
Qed.

Lemma Scene_Arena s : Scene s → Arena s.
Proof. intros (Hs & Hl & Hg & _). split; [exact Hs | split; assumption]. Qed.

Lemma Arena_onLane s i : Arena s → (i < kMaxMarbles)%nat → onLane (marble s i).
Proof.
  intros ((Hlen & _) & Hl & _) Hi. apply (Lane_marble s i Hl). rewrite Hlen. exact Hi.
Qed.

Lemma Scene_onLane s i : Scene s → (i < kMaxMarbles)%nat → onLane (marble s i).
Proof. intros Hs. apply Arena_onLane, Scene_Arena, Hs. Qed.

Lemma onLane_nonneg m : onLane m → 0 <= posZ (model m).
Proof.
  intros (_ & _ & k & (Hk & _) & Hz & _).
  assert (E : inject_Z k == posZ (model m) * 2) by (rewrite Hz; field).
  rewrite Zle_Qle in Hk. change (inject_Z 0) with 0 in Hk. clear Hz. lra.
Qed.

(** A marble that reaches a middle block which is not DEAD stands exactly
    two units before the row. *)
Lemma reaches_entry s i row c :
  Arena s → Passed s → (i < kMaxMarbles)%nat → (row < kNumRows)%nat →
  c = 2%nat ∨ c = 3%nat → blockState s row c ≠ DEAD → reaches s i row c = true →
  active (marble s i) = true ∧ posZ (model (marble s i)) == gridZ row - 2.
Proof.
  intros Hs Hpass Hi Hrow Hc Hlive Hreach.
  unfold reaches in Hreach. apply andb_true_iff in Hreach as [Hreach Hcc].
  apply andb_true_iff in Hreach as [Ha _]. split; [exact Ha|].
  destruct (Arena_onLane s i Hs Hi) as (Hx & _ & k & _ & Hz & _).
  assert (Hc5 : (c < kNumBlocksPerRow)%nat)
    by (unfold kNumBlocksPerRow; destruct Hc; lia).
  destruct Hs as (_ & _ & Hg).
  apply (middle_collision _ _ row c) in Hcc;
    [|exact Hx | exact Hc | apply Hg; assumption].
  cbn [MoveZ posZ] in Hcc.
  destruct (Qlt_le_dec (posZ (model (marble s i))) (gridZ row - (3 # 2))) as [Hlt|Hle].
  - rewrite gridZ_int in *. apply (raster_entry _ k); [exact Hz | | exact Hlt].
    destruct (Qlt_le_dec (inject_Z (5 * Z.of_nat row + 10) - (5 # 2))
                (posZ (model (marble s i)))) as [H|H]; [exact H|].
    exfalso. unfold kMarbleSpeed in Hcc. clear Hz. nra.
  - exfalso. apply Hlive. apply (Hpass i row c); assumption.
Qed.

Lemma reaches_side s i row c :
  Arena s → (row < kNumRows)%nat → (c < kNumBlocksPerRow)%nat →
  c ≠ 2%nat → c ≠ 3%nat → reaches s i row c = false.
Proof.
  intros (_ & Hl & Hg) Hrow Hc H2 H3. unfold reaches.
  rewrite (miss_side_column _ (block s row c) row c); [apply andb_false_r | | | | |];
    try assumption; [|apply Hg; assumption].
  cbn [MoveZ posX]. apply Lane_posX, Hl.
Qed.

(** In a frame at most one marble reaches a block that is not DEAD. *)
Lemma hitCount_arena s row c :
  Arena s → Apart s → Passed s → (row < kNumRows)%nat → (c < kNumBlocksPerRow)%nat →
  blockState s row c ≠ DEAD → (hitCount s row c ≤ 1)%nat.
Proof.
  intros Hs Hap Hpass Hrow Hc Hlive. unfold hitCount, kMaxMarbles. cbn [seq List.filter].
  destruct (decide (c = 2%nat ∨ c = 3%nat)) as [Hmid|Hside].
  - assert (Hsame : ∀ i j, (i < 3)%nat → (j < 3)%nat → i ≠ j →
              reaches s i row c = true → reaches s j row c = true → False).
    { intros i j Hi Hj Hne Hri Hrj.
      destruct (reaches_entry s i row c Hs Hpass Hi Hrow Hmid Hlive Hri) as (Hai & Hzi).
      destruct (reaches_entry s j row c Hs Hpass Hj Hrow Hmid Hlive Hrj) as (Haj & Hzj).
      apply (Hap i j Hi Hj Hne Hai Haj). rewrite Hzi, Hzj. reflexivity. }
    destruct (reaches s 0 row c) eqn:H0, (reaches s 1 row c) eqn:H1,
             (reaches s 2 row c) eqn:H2; cbn [length]; try lia; exfalso.
    + apply (Hsame 0%nat 1%nat); (lia || assumption).
    + apply (Hsame 0%nat 1%nat); (lia || assumption).
    + apply (Hsame 0%nat 2%nat); (lia || assumption).
    + apply (Hsame 1%nat 2%nat); (lia || assumption).
  - rewrite !reaches_side by (assumption || lia). cbn [length]. lia.
Qed.

Lemma hitCount_live s row c :
  Scene s → Apart s → Passed s → (row < kNumRows)%nat → (c < kNumBlocksPerRow)%nat →
  blockState s row c ≠ DEAD → (hitCount s row c ≤ 1)%nat.
Proof. intros Hs. apply hitCount_arena, Scene_Arena, Hs. Qed.

Lemma Flight_idle s :
  (∀ i, (i < kMaxMarbles)%nat → active (marble s i) = false) → Flight s.
Proof.
  intros Hidle. split; [|split].
  - intros i Hi Ha. rewrite (Hidle i Hi) in Ha. discriminate.
  - intros i j Hi _ _ Ha. rewrite (Hidle i Hi) in Ha. discriminate.
  - intros i row c Hi _ _ Ha. rewrite (Hidle i Hi) in Ha. discriminate.
Qed.

Lemma Flight_same s t :
  marbles t = marbles s → blockStates t = blockStates s → Flight s → Flight t.
Proof.
  intros Hm Hb (Hl & Ha & Hp). unfold Flight, Launched, Apart, Passed, marble, blockState.
  rewrite Hm, Hb. repeat split; assumption.
Qed.

Lemma gridZ_far row : (row < kNumRows)%nat → (3 # 2) < gridZ row - (3 # 2).
Proof.
  intros Hrow. unfold kNumRows in Hrow.
  destruct row as [|[|row]]; [| |lia]; reflexivity.
Qed.

(** Firing keeps the marbles in flight apart and behind the live blocks. *)
Lemma Flight_ShootMarble s :
  Flight s → Apart (ShootMarble s) ∧ Passed (ShootMarble s).
Proof.
  intros (Hl & Ha & Hp).
  destruct (ShootMarble_cases s) as [->|(i0 & Hfree & ->)]; [split; assumption|].
  assert (Hm : ∀ i, active (marble (onMarble i0 launch s) i) = true →
            (i = i0 ∧ posZ (model (marble (onMarble i0 launch s) i)) = 0) ∨
            (i ≠ i0 ∧ marble (onMarble i0 launch s) i = marble s i)).
  { intros i Hact. destruct (decide (i = i0)) as [->|Hne].
    - left. split; [reflexivity|]. revert Hact. unfold marble. cbn [marbles onMarble].
      rewrite list_lookup_total_alter. case_decide as H; [reflexivity|].
      intros Hact. unfold marble in Hfree. congruence.
    - right. split; [exact Hne | apply marble_onMarble_other, Hne]. }
  split.
  - intros i j Hi Hj Hne Hai Haj.
    destruct (Hm i Hai) as [(-> & Hzi)|(Hni & Hei)],
             (Hm j Haj) as [(-> & Hzj)|(Hnj & Hej)]; try congruence.
    + rewrite Hzi, Hej. rewrite Hej in Haj. specialize (Hl j Hj Haj).
      intros Heq. rewrite <- Heq in Hl. revert Hl. apply Qlt_not_le. reflexivity.
    + rewrite Hzj, Hei. rewrite Hei in Hai. specialize (Hl i Hi Hai).
      intros Heq. rewrite Heq in Hl. revert Hl. apply Qlt_not_le. reflexivity.
    + rewrite Hei, Hej in *. apply Ha; assumption.
  - intros i row c Hi Hrow Hc Hai Hz.
    change (blockState (onMarble i0 launch s) row c) with (blockState s row c).
    destruct (Hm i Hai) as [(-> & Hzi)|(Hni & Hei)].
    + exfalso. rewrite Hzi in Hz. pose proof (gridZ_far row Hrow) as Hfar.
      revert Hz. apply Qlt_not_le. lra.
    + rewrite Hei in *. apply (Hp i row c); assumption.
Qed.

(** The marble pass keeps the marbles in flight apart and behind the live
    blocks, and leaves none of them at the origin. *)
Lemma Flight_moveMarbles s :
  Scene s → Apart s → Passed s → Flight (moveMarbles s).
Proof.
  intros Hs Ha Hp.
  assert (Hstep : ∀ i, (i < kMaxMarbles)%nat → active (marble (moveMarbles s) i) = true →
            active (marble s i) = true ∧
            posZ (model (marble (moveMarbles s) i))
            = posZ (model (marble s i)) + kMarbleSpeed).
  { intros i Hi Hact.
    assert (H0 : (0 < kNumRows)%nat ∧ (0 < kNumBlocksPerRow)%nat)
      by (unfold kNumRows, kNumBlocksPerRow; lia).
    destruct (survivor_moveMarbles s i 0 0 Hi (proj1 H0) (proj2 H0) Hact) as (Hai & _).
    split; [exact Hai | apply posZ_moveMarbles; assumption]. }
  split; [|split].
  - intros i Hi Hact. destruct (Hstep i Hi Hact) as (Hai & ->).
    pose proof (onLane_nonneg _ (Scene_onLane s i Hs Hi)) as H0.
    unfold kMarbleSpeed. lra.
  - intros i j Hi Hj Hne Hacti Hactj.
    destruct (Hstep i Hi Hacti) as (Hai & ->), (Hstep j Hj Hactj) as (Haj & ->).
    intros Heq. apply (Ha i j Hi Hj Hne Hai Haj). lra.
  - intros i row c Hi Hrow Hc Hact Hz.
    destruct (Hstep i Hi Hact) as (Hai & Hpos). rewrite Hpos in Hz.
    assert (Hc5 : (c < kNumBlocksPerRow)%nat)
      by (unfold kNumBlocksPerRow; destruct Hc; lia).
    destruct (Qlt_le_dec (posZ (model (marble s i))) (gridZ row - (3 # 2))) as [Hlt|Hle].
    + destruct (survivor_moveMarbles s i row c Hi Hrow Hc5 Hact) as (_ & Hdead).
      apply Hdead.
      destruct (Scene_onLane s i Hs Hi) as (Hx & _ & k & _ & Hk & _).
      apply (middle_collision _ _ row c); [exact Hx | exact Hc | apply Hs; assumption|].
      cbn [MoveZ posZ].
      assert (Hentry : posZ (model (marble s i)) == gridZ row - 2).
      { rewrite gridZ_int in *. apply (raster_entry _ k); [exact Hk | | exact Hlt].
        unfold kMarbleSpeed in Hz. clear Hk. lra. }
      rewrite Hentry. unfold kMarbleSpeed. ring_simplify. reflexivity.
    + pose proof (Hp i row c Hi Hrow Hc Hai Hle) as Hd.
      pose proof (rank_moveMarbles row c s) as Hrk. rewrite Hd in Hrk.
      destruct (blockState (moveMarbles s) row c); cbn [rank] in Hrk; (reflexivity || lia).
Qed.

Lemma reachable_Flight s : reachable s → Flight s.
Proof.
  induction 1 as [|k s Hr IH _].
  - apply Flight_idle. intros i Hi. unfold kMaxMarbles in Hi.
    destruct i as [|[|[|i]]]; [| | |lia]; reflexivity.
  - destruct (reachable_Scene s Hr) as (Hs & Hover & _).
    destruct (currentState s) eqn:Hphase; [| |congruence].
    + unfold Update. rewrite Hphase. destruct (KeyHit k Key_Space); exact IH.
    + destruct (UpdateGame_checked k s Hphase) as (t & -> & _ & ->).
      apply (Flight_same _ _ (marbles_checkWin _) (blockStates_checkWin _)).
      set (s1 := if KeyHit k Key_Space then ShootMarble s else s).
      assert (H1 : Scene s1 ∧ Apart s1 ∧ Passed s1).
      { unfold s1. destruct (KeyHit k Key_Space).
        - split; [apply Scene_ShootMarble, Hs | apply Flight_ShootMarble, IH].
        - split; [exact Hs | split; apply IH]. }
      destruct H1 as (Hs1 & Ha1 & Hp1).
      destruct (KeyHit k Key_0); [|apply Flight_moveMarbles; assumption].
      apply Flight_idle. intros i _. apply active_RestartGame.
      apply (Scene_moveMarbles s1 Hs1).
Qed.

(** ** The win check *)









(** X13.  A block is never destroyed in one frame.  From any reachable state a
    frame advances the state of a block by at most one step: two marbles
    never strike the same block in the same frame, so a NORMAL block is
    HIT_ONCE, and shows its red skin, for at least a frame before it is
    DEAD. *)
Theorem one_step_per_frame (s : World) (k : Keys) (row c : nat) :
  reachable s → (row < kNumRows)%nat → (c < kNumBlocksPerRow)%nat →
  (rank (blockState (Update k s) row c) ≤ rank (blockState s row c) + 1)%nat.
Proof.
  intros Hr Hrow Hc.
  destruct (reachable_Scene s Hr) as (Hs & Hover & _).
  pose proof (reachable_Flight s Hr) as Hf.
  destruct (currentState s) eqn:Hphase; [| |congruence].
  - unfold Update. rewrite Hphase. destruct (KeyHit k Key_Space);
      change (blockState (setCurrentState GAME s) row c) with (blockState s row c); lia.
  - destruct (UpdateGame_checked k s Hphase) as (t & -> & _ & ->).
    unfold blockState at 1. rewrite blockStates_checkWin.
    set (s1 := if KeyHit k Key_Space then ShootMarble s else s).
    assert (H1 : Scene s1 ∧ Apart s1 ∧ Passed s1 ∧ blockState s1 row c = blockState s row c).
    { unfold s1. destruct (KeyHit k Key_Space).
      - split; [apply Scene_ShootMarble, Hs|].
        destruct (Flight_ShootMarble s Hf) as (Ha & Hp). repeat split; try assumption.
        unfold blockState. rewrite blockStates_ShootMarble. reflexivity.
      - repeat split; (apply Hs || apply Hf). }
    destruct H1 as (Hs1 & Ha1 & Hp1 & Hb1).
    destruct (KeyHit k Key_0).
    + fold (blockState (RestartGame (moveMarbles s1)) row c).
      rewrite blockState_RestartGame; [cbn [rank]; lia | | exact Hrow | exact Hc].
      apply (Scene_moveMarbles s1 Hs1).
    + fold (blockState (moveMarbles s1) row c).
      assert (Hcases : blockState s1 row c = DEAD ∨ blockState s1 row c ≠ DEAD)
        by (destruct (blockState s1 row c); [right | right | left];
            (reflexivity || discriminate)).
      destruct Hcases as [Hd|Hlive].
      * rewrite <- Hb1, Hd. destruct (blockState (moveMarbles s1) row c); cbn [rank]; lia.
      * pose proof (rank_moveMarbles_hitCount row c s1) as Hrk.
        pose proof (hitCount_live s1 row c Hs1 Ha1 Hp1 Hrow Hc Hlive) as Hcount.
        rewrite <- Hb1. lia.
Qed.

Lemma one_step_per_frame_witness :
  (rank (blockState (Update noKey beforeImpact) 0 2)
   ≤ rank (blockState beforeImpact 0 2) + 1)%nat.
Proof.
  refine (one_step_per_frame beforeImpact noKey 0 2 _ _ _).
  - apply reachable_mainLoop, reach_setup.
  - unfold kNumRows. lia.
  - unfold kNumBlocksPerRow. lia.
Defined.

(** X14.  Marbles in flight are apart.  In every reachable state every marble
    in flight has left the origin, and two different marbles in flight are
    at different z: at most one shot is fired per frame and all marbles
    advance together. *)
Theorem marbles_in_flight_apart (s : World) (i : nat) :
  reachable s → (i < kMaxMarbles)%nat → active (marble s i) = true →
  1 # 2 <= posZ (model (marble s i)) ∧
  ∀ j, (j < kMaxMarbles)%nat → j ≠ i → active (marble s j) = true →
       ¬ posZ (model (marble s i)) == posZ (model (marble s j)).
Proof.
  intros Hr Hi Hai. destruct (reachable_Flight s Hr) as (Hl & Ha & _).
  split; [apply Hl; assumption|].
  intros j Hj Hne Haj. apply Ha; (assumption || congruence).
Qed.

(** A marble that flies alone, and two marbles in flight. *)
Lemma marbles_in_flight_apart_witness :
  1 # 2 <= posZ (model (marble midFlight 0)) ∧
  ¬ posZ (model (marble twoInFlight 0)) == posZ (model (marble twoInFlight 1)).
Proof.
  split.
  - refine (proj1 (marbles_in_flight_apart midFlight 0 _ _ _)).
    + apply reachable_mainLoop, reach_setup.
    + unfold kMaxMarbles. lia.
    + vm_compute. reflexivity.
  - refine (proj2 (marbles_in_flight_apart twoInFlight 0 _ _ _) 1%nat _ _ _).
    + apply reachable_mainLoop, reach_setup.
    + unfold kMaxMarbles. lia.
    + vm_compute. reflexivity.
    + unfold kMaxMarbles. lia.
    + discriminate.
    + vm_compute. reflexivity.
Defined.

(** X15.  A marble never passes a live block.  In every reachable state, when a
    marble in flight is within 1.5 units of a row of blocks, or beyond it,
    the two middle blocks of that row are DEAD: a marble that comes into
    range of a row with a live middle block ends there. *)
Theorem marble_passes_only_dead_blocks (s : World) (i row : nat) :
  reachable s → (i < kMaxMarbles)%nat → (row < kNumRows)%nat →
  active (marble s i) = true →
  gridZ row - (3 # 2) <= posZ (model (marble s i)) →
  blockState s row 2 = DEAD ∧ blockState s row 3 = DEAD.
Proof.
  intros Hr Hi Hrow Ha Hz. destruct (reachable_Flight s Hr) as (_ & _ & Hp).
  split; apply (Hp i row); auto.
Qed.

Lemma marble_passes_only_dead_blocks_witness :
  blockState thirdShotPassing 0 2 = DEAD ∧ blockState thirdShotPassing 0 3 = DEAD.
Proof.
  refine (marble_passes_only_dead_blocks thirdShotPassing 2 0 _ _ _ _ _).
  - apply reachable_mainLoop, reach_setup.
  - unfold kMaxMarbles. lia.
  - unfold kNumRows. lia.
  - vm_compute. reflexivity.
  - vm_compute. intros H. discriminate H.
Defined.

(** ** What a block shows *)

Lemma Looks_lookup s r c :
  Looks s → (r < kNumRows)%nat → (c < kNumBlocksPerRow)%nat → shaped s →
  looks (blockState s r c) (block s r c).
Proof.
  unfold Looks, blockState, block. intros H Hr Hc Hs.
  destruct (shaped_rows s r Hs Hr) as (Hlen & Hlen').
  rewrite <- Hlen in Hr. apply lookup_lt_is_Some_2 in Hr as [x Hx].
  destruct (Forall2_lookup_l _ _ _ _ _ H Hx) as (y & Hy & Hxy).
  rewrite (list_lookup_total_correct _ _ _ Hx) in *.
  rewrite (list_lookup_total_correct _ _ _ Hy).
  rewrite <- Hlen' in Hc. apply lookup_lt_is_Some_2 in Hc as [a Ha].
  destruct (Forall2_lookup_l _ _ _ _ _ Hxy Ha) as (b & Hb & Hab).
  rewrite (list_lookup_total_correct _ _ _ Ha), (list_lookup_total_correct _ _ _ Hb).
  exact Hab.
Qed.

Lemma looks_hit st b :
  st ≠ DEAD → looks st b → looks (damaged st) (dent st b).
Proof.
  intros Hlive (Hv & Hs). destruct st; [| |congruence]; cbn [damaged dent]; split.
  - exact Hv.
  - split; [discriminate | reflexivity].
  - reflexivity.
  - cbn [SetVisible skin]. split; [discriminate|]. intros _. apply Hs. discriminate.
Qed.

Lemma Looks_hitBlock i row j s : Looks s → Looks (hitBlock i row j s).
Proof.
  intros H. rewrite hitBlock_eq. destruct (collides s i row j) eqn:Hc; [|exact H].
  apply collides_not_DEAD in Hc.
  unfold Looks. cbn [blockStates blocks onBlock setBlockState]. unfold removeMarble.
  cbn [blockStates blocks onMarble].
  apply Forall2_alter; [exact H|]. intros x y Hx Hy Hxy.
  apply Forall2_alter; [exact Hxy|]. intros a b Ha Hb Hab.
  assert (Hst : blockState s row j = a).
  { unfold blockState.
    rewrite (list_lookup_total_correct _ _ _ Hx), (list_lookup_total_correct _ _ _ Ha).
    reflexivity. }
  rewrite Hst in *. apply looks_hit; assumption.
Qed.

Lemma Looks_moveMarble i s : Looks s → Looks (moveMarble i s).
Proof.
  intros H. unfold moveMarble. destruct (active (marble s i)); [|exact H].
  destruct (Qlt_bool _ _); [exact H|].
  unfold checkBlocks. apply for_each_inv; [exact H|].
  intros row t _ Ht. apply for_each_inv; [exact Ht|].
  intros j u _. apply Looks_hitBlock.
Qed.

Lemma Looks_RestartGame s : shaped s → Looks (RestartGame s).
Proof.
  intros H. rewrite (RestartGame_result s H). unfold Looks.
  cbn [blockStates blocks]. unfold kNumRows, kNumBlocksPerRow.
  cbn [seq fmap list_fmap replicate].
  repeat constructor; (discriminate || (intros Hx; exfalso; apply Hx; reflexivity)).
Qed.

Lemma reachable_Looks s : reachable s → Looks s.
Proof.
  induction 1 as [|k s Hr IH _].
  - unfold Looks, SetupScene, kNumRows, kNumBlocksPerRow.
    cbn [blockStates blocks seq map].
    repeat constructor; (discriminate || (intros Hx; exfalso; apply Hx; reflexivity)).
  - destruct (reachable_Scene s Hr) as (Hs & Hover & _).
    destruct (currentState s) eqn:Hphase; [| |congruence].
    + unfold Update. rewrite Hphase. destruct (KeyHit k Key_Space); exact IH.
    + destruct (UpdateGame_checked k s Hphase) as (t & -> & _ & ->).
      unfold Looks. rewrite blockStates_checkWin, blocks_checkWin.
      set (s1 := if KeyHit k Key_Space then ShootMarble s else s).
      assert (H1 : Scene s1 ∧ Looks s1).
      { unfold s1. destruct (KeyHit k Key_Space); [|split; assumption].
        split; [apply Scene_ShootMarble, Hs|].
        unfold Looks. rewrite blockStates_ShootMarble, blocks_ShootMarble. exact IH. }
      destruct H1 as (Hs1 & Hl1).
      destruct (KeyHit k Key_0).
      * apply Looks_RestartGame. apply (Scene_moveMarbles s1 Hs1).
      * unfold moveMarbles. apply (for_each_inv Looks); [exact Hl1|].
        intros i t _. apply Looks_moveMarble.
Qed.

(** X16.  What a block shows matches its state.  In every reachable state a
    block of the grid is visible exactly when it is not DEAD, and wears
    the skin "red.jpg" exactly when it is not NORMAL. *)
Theorem block_looks_match_state (s : World) (row i : nat) :
  reachable s → (row < kNumRows)%nat → (i < kNumBlocksPerRow)%nat →
  (visible (block s row i) = true ↔ blockState s row i ≠ DEAD) ∧
  (skin (block s row i) = Some "red.jpg"%string ↔ blockState s row i ≠ NORMAL).
Proof.
  intros Hr Hrow Hi.
  destruct (Looks_lookup s row i (reachable_Looks s Hr) Hrow Hi (reachable_shaped s Hr))
    as (Hv & Hs).
  split; [|exact Hs]. rewrite Hv.
  destruct (blockState s row i); cbn [BlockState_eqb negb]; split;
    (discriminate || reflexivity || (intros Hx; exfalso; apply Hx; reflexivity)).
Qed.

Lemma block_looks_match_state_witness :
  visible (block (mainLoop oneShot SetupScene) 0 2) = true ↔
  blockState (mainLoop oneShot SetupScene) 0 2 ≠ DEAD.
Proof.
  refine (proj1 (block_looks_match_state (mainLoop oneShot SetupScene) 0 2 _ _ _)).
  - apply reachable_mainLoop, reach_setup.
  - unfold kNumRows. lia.
  - unfold kNumBlocksPerRow. lia.
Defined.
